(** * The Playwright verification scripts, as trace-producing programs

    The repository holds two scripts, [verification/verify_sheet.py]
    ([verify_sheet_music]) and [verification/verify.py] ([run]).  Both are
    straight-line drivers of Playwright's synchronous API.  Everything they
    do is a call into the library, a [print] or a [time.sleep]; what the
    library answers is not in the repository.

    The embedding therefore runs each script against an oracle [Env] that
    decides, from the events so far, whether a library call raises and what
    it returns.  A script is a function from the oracle to the list of
    events it performs and to the way it ends (normal return, or the
    exception that leaves the function). *)

From Stdlib Require Import ZArith NArith List Bool Lia Ascii DecimalString.
From stdpp Require Import base option list strings gmap.

Local Open Scope string_scope.
Local Open Scope list_scope.

(** ** Exceptions *)

(** The exceptions the scripts can meet.  Playwright's [Error] and its
    subclass [TimeoutError] derive from [Exception]; [KeyboardInterrupt]
    stands for the ones that derive from [BaseException] only, which
    [except Exception] lets through and a bare [except:] catches. *)
Inductive exn_class : Type :=
  | PlaywrightError
  | PlaywrightTimeoutError
  | KeyboardInterrupt.

Record exn : Type := Exn { exn_cls : exn_class; exn_msg : string }.

Definition is_Exception (e : exn) : bool :=
  match exn_cls e with
  | KeyboardInterrupt => false
  | _ => true
  end.

(** ** Library calls and events *)

Definition png : Type := list Byte.byte.

Inductive call : Type :=
  | SyncPlaywrightEnter
  | ChromiumLaunch (headless : bool)
  | NewPage
  | PageGoto (url : string)
  | WaitForSelector (selector : string) (state : option string) (timeout : option Z)
  | PageClick (selector : string)
  | PageFill (selector value : string)
  | PageScreenshot (path : string)
  | LocatorCount (selector : string)
  | LocatorScreenshot (selector path : string)
  | BrowserClose.

Inductive value : Type :=
  | VNone
  | VInt (n : nat)
  | VBytes (img : png).

Inductive event : Type :=
  | Returned (c : call) (v : value)
  | Threw (c : call) (e : exn)
  | PrintLine (line : string)
  | Slept (seconds : Z)
  | SyncPlaywrightExit.

#[global] Instance byte_eq_dec : EqDecision Byte.byte := Byte.byte_eq_dec.
#[global] Instance exn_class_eq_dec : EqDecision exn_class.
Proof. solve_decision. Defined.
#[global] Instance exn_eq_dec : EqDecision exn.
Proof. solve_decision. Defined.
#[global] Instance call_eq_dec : EqDecision call.
Proof. solve_decision. Defined.
#[global] Instance value_eq_dec : EqDecision value.
Proof. solve_decision. Defined.
#[global] Instance event_eq_dec : EqDecision event.
Proof. solve_decision. Defined.

(** The oracle: the behaviour of the browser, the page and the target. *)
Record Env : Type := {
  raises : list event -> call -> option exn;
  matches : list event -> string -> nat;
  pixels : list event -> call -> png
}.

(** ** The monad of the scripts *)

Inductive outcome (A : Type) : Type :=
  | Normal (a : A)
  | Raised (e : exn).
Arguments Normal {A} a.
Arguments Raised {A} e.

(** A computation reads the events that happened before it and yields the
    events it performs, in order, with its outcome. *)
Definition M (A : Type) : Type := list event -> list event * outcome A.

Definition ret {A} (a : A) : M A := fun _ => ([], Normal a).

Definition bind {A B} (m : M A) (f : A -> M B) : M B :=
  fun past =>
    match m past with
    | (o1, Normal a) =>
        match f a (past ++ o1) with
        | (o2, r) => (o1 ++ o2, r)
        end
    | (o1, Raised e) => (o1, Raised e)
    end.

Notation "x <- m ;; k" := (bind m (fun x => k))
  (at level 100, m at next level, right associativity).
Notation "m ;; k" := (bind m (fun _ => k))
  (at level 100, right associativity).

Definition print (line : string) : M unit :=
  fun _ => ([PrintLine line], Normal tt).

Definition sleep (seconds : Z) : M unit :=
  fun _ => ([Slept seconds], Normal tt).

(** [str(n)] for a non-negative integer. *)
Definition str (n : N) : string := NilZero.string_of_uint (N.to_uint n).

Section Scripts.

Variable env : Env.

Definition result_value (past : list event) (c : call) : value :=
  match c with
  | LocatorCount sel => VInt (matches env past sel)
  | PageScreenshot _ | LocatorScreenshot _ _ => VBytes (pixels env past c)
  | _ => VNone
  end.

Definition invoke (c : call) : M value :=
  fun past =>
    match raises env past c with
    | Some e => ([Threw c e], Raised e)
    | None => ([Returned c (result_value past c)], Normal (result_value past c))
    end.

(** [try: body / except Exception as e: handler e] *)
Definition try_except_Exception {A} (body : M A) (handler : exn -> M A) : M A :=
  fun past =>
    match body past with
    | (o1, Raised e) =>
        if is_Exception e then
          match handler e (past ++ o1) with
          | (o2, r) => (o1 ++ o2, r)
          end
        else (o1, Raised e)
    | r => r
    end.

(** [try: body / except: handler] *)
Definition try_except {A} (body : M A) (handler : M A) : M A :=
  fun past =>
    match body past with
    | (o1, Raised _) =>
        match handler (past ++ o1) with
        | (o2, r) => (o1 ++ o2, r)
        end
    | r => r
    end.

Inductive flow : Type := Continue | Break.

(** [for x in xs: body x], where the body may [break]. *)
Fixpoint for_in {X} (xs : list X) (body : X -> M flow) : M unit :=
  match xs with
  | [] => ret tt
  | x :: xs' =>
      f <- body x;;
      match f with
      | Break => ret tt
      | Continue => for_in xs' body
      end
  end.

Definition range (n : nat) : list nat := seq 0 n.

(** [with sync_playwright() as p: body].  [__exit__] runs on every way out
    of the body and does not swallow the exception. *)
Definition with_sync_playwright {A} (body : M A) : M A :=
  fun past =>
    match invoke SyncPlaywrightEnter past with
    | (o0, Raised e) => (o0, Raised e)
    | (o0, Normal _) =>
        match body (past ++ o0) with
        | (o1, r) => (o0 ++ o1 ++ [SyncPlaywrightExit], r)
        end
    end.

(** ** verification/verify_sheet.py *)

Definition port : N := 3000.
Definition title_selector : string := "text=Music Note Creator".
Definition toast_selector : string := "text=Video Loaded".
Definition svg_selector : string := "svg".
Definition container_selector : string := "div.w-full.h-\[400px\]".
Definition sheet_music_full : string := "verification/sheet_music_full.png".
Definition sheet_music_detail : string := "verification/sheet_music_detail.png".

Definition target_url : string := "http://localhost:" +:+ str port.

Definition wait_title : call := WaitForSelector title_selector (Some "visible") None.
Definition wait_toast : call := WaitForSelector toast_selector None (Some 15000%Z).
Definition wait_svg : call := WaitForSelector svg_selector None (Some 15000%Z).
Definition click_youtube : call := PageClick "button[title='Use YouTube Source']".
Definition fill_url : call :=
  PageFill "input[placeholder='Paste YouTube URL...']"
           "https://www.youtube.com/watch?v=dQw4w9WgXcQ".
Definition click_load : call := PageClick "button[title='Load Video']".

Definition attempt_failed (i : nat) (e : exn) : string :=
  "Connection attempt " +:+ str (N.of_nat i) +:+ " failed: " +:+ exn_msg e.

(** Lines 15-20: one turn of the retry loop. *)
Definition attempt (i : nat) : M flow :=
  try_except_Exception
    (invoke (PageGoto target_url);;
     ret Break)
    (fun e =>
       print (attempt_failed i e);;
       sleep 2;;
       ret Continue).

(** Lines 14-20: the retry loop around [page.goto]. *)
Definition connect (attempts : nat) : M unit :=
  for_in (range attempts) attempt.

(** Lines 38-43: the wait for the toast. *)
Definition await_toast : M unit :=
  try_except
    (invoke wait_toast;;
     print "Video loaded toast confirmed.")
    (print "Toast not found, maybe missed it. Checking for SVG...").

(** Lines 45-51: the wait for the rendered score. *)
Definition await_svg : M unit :=
  try_except
    (invoke wait_svg;;
     print "SVG element found.")
    (print "No SVG found yet.").

(** Lines 53-64: the two captures and [browser.close()].  [page.locator]
    only builds a locator and asks the page nothing, so it leaves no event;
    the page is queried by [count()] and by [screenshot]. *)
Definition capture_and_close : M unit :=
  invoke (PageScreenshot sheet_music_full);;
  print "Full page screenshot taken.";;
  let element := container_selector in
  n <- invoke (LocatorCount element);;
  (if match n with VInt k => (0 <? k)%nat | _ => false end then
     invoke (LocatorScreenshot element sheet_music_detail);;
     print "Detail screenshot taken."
   else ret tt);;
  invoke BrowserClose;;
  ret tt.

(** Lines 22-64: everything after the retry loop. *)
Definition drive : M unit :=
  print "Waiting for title...";;
  invoke wait_title;;
  print "App loaded.";;
  invoke click_youtube;;
  invoke fill_url;;
  invoke click_load;;
  print "Video loading initiated...";;
  await_toast;;
  await_svg;;
  capture_and_close.

(** Lines 5-64. *)
Definition verify_sheet_music : M unit :=
  with_sync_playwright (
    invoke (ChromiumLaunch true);;
    invoke NewPage;;
    print ("Connecting to localhost:" +:+ str port);;
    connect 10;;
    drive).

(** ** verification/verify.py *)

Definition preview_url : string := "http://localhost:4173".
Definition screenshot_path : string := "verification/screenshot.png".

(** Lines 5-22. *)
Definition run : M unit :=
  with_sync_playwright (
    invoke (ChromiumLaunch true);;
    invoke NewPage;;
    invoke (PageGoto preview_url);;
    sleep 2;;
    invoke (PageScreenshot screenshot_path);;
    invoke BrowserClose;;
    ret tt).

End Scripts.

(** ** What a run leaves behind *)

(** The script file ends with [if __name__ == "__main__": f()]: the process
    exits with status 0 exactly when [f] returns, and with a non-zero status
    when an exception leaves it. *)
Definition exit_ok {A} (r : outcome A) : bool :=
  match r with
  | Normal _ => true
  | Raised _ => false
  end.

Definition call_of (ev : event) : option call :=
  match ev with
  | Returned c _ | Threw c _ => Some c
  | _ => None
  end.

(** The library calls of a trace, in order. *)
Definition calls (tr : list event) : list call := omap call_of tr.

Definition printed (tr : list event) : list string :=
  omap (fun ev => match ev with PrintLine s => Some s | _ => None end) tr.

Definition total_sleep (tr : list event) : Z :=
  foldr (fun ev acc => match ev with Slept s => (s + acc)%Z | _ => acc end) 0%Z tr.

Definition written_by (ev : event) : option (string * png) :=
  match ev with
  | Returned (PageScreenshot path) (VBytes img) => Some (path, img)
  | Returned (LocatorScreenshot _ path) (VBytes img) => Some (path, img)
  | _ => None
  end.

(** The files a trace writes, in order, with their contents. *)
Definition written (tr : list event) : list (string * png) := omap written_by tr.

Definition is_goto (c : call) : bool :=
  match c with
  | PageGoto _ => true
  | _ => false
  end.

Definition goto_attempts (tr : list event) : nat :=
  length (List.filter is_goto (calls tr)).

(** The machine around the script, as far as the script's own calls decide
    it: the browsers launched and not yet closed by [browser.close()], how
    many [browser.close()] has closed, whether the Playwright driver runs,
    and the files on disk.  A launch that returns starts a browser;
    [browser.close()] that returns ends one; entering the
    [with sync_playwright()] block starts the driver and leaving it stops
    the driver; a screenshot that returns writes its file, replacing what
    was there.  What the library does on its own to a browser the script
    never closed is not in the source and is not modelled. *)
Record world : Type := World {
  driver_running : bool;
  live_browsers : nat;
  released : nat;
  files : gmap string png
}.

Definition apply_event (w : world) (ev : event) : world :=
  match ev with
  | Returned SyncPlaywrightEnter _ =>
      World true (live_browsers w) (released w) (files w)
  | Returned (ChromiumLaunch _) _ =>
      World (driver_running w) (S (live_browsers w)) (released w) (files w)
  | Returned BrowserClose _ =>
      match live_browsers w with
      | O => w
      | S n => World (driver_running w) n (S (released w)) (files w)
      end
  | SyncPlaywrightExit =>
      World false (live_browsers w) (released w) (files w)
  | _ =>
      match written_by ev with
      | Some (path, img) =>
          World (driver_running w) (live_browsers w) (released w)
                (<[path := img]> (files w))
      | None => w
      end
  end.

Definition world_after (w : world) (tr : list event) : world :=
  foldl apply_event w tr.



Definition idle (fs : gmap string png) : world := World false 0 0 fs.




(** * Vocabulary of the statements *)

(** ** Lines the scripts print, and calls they make *)

Definition waiting_for_title : string := "Waiting for title...".
Definition toast_missed : string :=
  "Toast not found, maybe missed it. Checking for SVG...".
Definition svg_missed : string := "No SVG found yet.".
Definition detail_taken : string := "Detail screenshot taken.".

Definition count_call : call := LocatorCount container_selector.
Definition detail_call : call :=
  LocatorScreenshot container_selector sheet_music_detail.

Definition not_goto (c : call) : bool := negb (is_goto c).

(** The calls made by [drive], as opposed to the start-up and the loop. *)
Definition drive_call (c : call) : bool :=
  match c with
  | SyncPlaywrightEnter | ChromiumLaunch _ | NewPage | PageGoto _ => false
  | _ => true
  end.

(** The calls of lines 53-64. *)
Definition capture_call (c : call) : bool :=
  match c with
  | PageScreenshot _ | LocatorCount _ | LocatorScreenshot _ _ | BrowserClose => true
  | _ => false
  end.

(** ** The scripts as lists of calls *)

(** The calls of [run], in program order. *)
Definition run_script : list call :=
  [SyncPlaywrightEnter; ChromiumLaunch true; NewPage; PageGoto preview_url;
   PageScreenshot screenshot_path; BrowserClose].

(** The calls of [drive] in program order; the element capture is there when
    the locator matched. *)
Definition drive_script (detail : bool) : list call :=
  [wait_title; click_youtube; fill_url; click_load; wait_toast; wait_svg;
   PageScreenshot sheet_music_full; count_call]
  ++ (if detail then [detail_call] else [])
  ++ [BrowserClose].

(** The calls of a whole run of [verify_sheet_music] that makes [k]
    navigation attempts and reaches the end. *)
Definition sheet_script (k : nat) (detail : bool) : list call :=
  [SyncPlaywrightEnter; ChromiumLaunch true; NewPage]
  ++ replicate k (PageGoto target_url)
  ++ drive_script detail.

(** ** Shapes of traces *)

(** What the failed attempts [es], the first of index [a], leave in the
    trace: the raise, the line printed by the handler, the sleep. *)
Fixpoint failed_attempts (a : nat) (es : list exn) : list event :=
  match es with
  | [] => []
  | e :: es' =>
      Threw (PageGoto target_url) e
        :: PrintLine (attempt_failed a e)
        :: Slept 2
        :: failed_attempts (S a) es'
  end.

(** How the loop ends after its failed attempts: the list is exhausted, an
    attempt returned ([break]), or an exception that is not an [Exception]
    left the loop. *)
Inductive loop_end (budget : nat) (failures : nat) :
    list event -> outcome unit -> Prop :=
  | loop_exhausted :
      failures = budget ->
      loop_end budget failures [] (Normal tt)
  | loop_break :
      failures < budget ->
      loop_end budget failures [Returned (PageGoto target_url) VNone] (Normal tt)
  | loop_interrupted e :
      failures < budget ->
      is_Exception e = false ->
      loop_end budget failures [Threw (PageGoto target_url) e] (Raised e).

(** The events before the loop when the start-up calls return. *)
Definition prologue : list event :=
  [Returned SyncPlaywrightEnter VNone;
   Returned (ChromiumLaunch true) VNone;
   Returned NewPage VNone;
   PrintLine ("Connecting to localhost:" +:+ str port)].

(** A run stops in the start-up calls, is interrupted inside the retry loop,
    or reaches [drive] after [es] failed attempts; in the last case the loop
    either ran out ([tail] empty) or broke on an attempt that returned. *)
Inductive sheet_run (env : Env) : list event -> outcome unit -> Prop :=
  | enter_failed e :
      raises env [] SyncPlaywrightEnter = Some e ->
      sheet_run env [Threw SyncPlaywrightEnter e] (Raised e)
  | launch_failed e :
      raises env [Returned SyncPlaywrightEnter VNone] (ChromiumLaunch true) = Some e ->
      sheet_run env
        [Returned SyncPlaywrightEnter VNone; Threw (ChromiumLaunch true) e;
         SyncPlaywrightExit] (Raised e)
  | new_page_failed e :
      raises env [Returned SyncPlaywrightEnter VNone;
                  Returned (ChromiumLaunch true) VNone] NewPage = Some e ->
      sheet_run env
        [Returned SyncPlaywrightEnter VNone; Returned (ChromiumLaunch true) VNone;
         Threw NewPage e; SyncPlaywrightExit] (Raised e)
  | connect_interrupted es e :
      Forall (fun e => is_Exception e = true) es ->
      length es < 10 ->
      is_Exception e = false ->
      sheet_run env
        (prologue ++ failed_attempts 0 es
           ++ [Threw (PageGoto target_url) e; SyncPlaywrightExit]) (Raised e)
  | driven es tail :
      Forall (fun e => is_Exception e = true) es ->
      connect env 10 prologue = (failed_attempts 0 es ++ tail, Normal tt) ->
      (tail = [] /\ length es = 10
       \/ tail = [Returned (PageGoto target_url) VNone] /\ length es < 10) ->
      let past := prologue ++ failed_attempts 0 es ++ tail in
      sheet_run env
        (past ++ (drive env past).1 ++ [SyncPlaywrightExit])
        (drive env past).2.

(** What precedes [drive] in a run that reaches it: the start-up, the failed
    attempts, and the attempt that returned unless the loop ran out. *)
Definition connected_past (past : list event) : Prop :=
  exists es tail,
    past = prologue ++ failed_attempts 0 es ++ tail
    /\ (tail = [] /\ length es = 10
        \/ tail = [Returned (PageGoto target_url) VNone] /\ length es < 10).

(** In [tr], the events [evs] are immediately followed by the call [c]
    (which may return or raise). *)
Definition followed_by (tr evs : list event) (c : call) : Prop :=
  exists pre ev post, tr = pre ++ evs ++ [ev] ++ post /\ call_of ev = Some c.

(** The exception [e] that ends the trace [tr] was thrown by the call [c]:
    it is the last event, or the last one before the exit of the [with]
    block. *)
Definition raised_by (tr : list event) (c : call) (e : exn) : Prop :=
  tr = [Threw c e] \/ exists pre, tr = pre ++ [Threw c e; SyncPlaywrightExit].

(** ** Files and reruns *)

Definition store (m : gmap string png) (file : string * png) : gmap string png :=
  <[file.1 := file.2]> m.


(** ** Assumptions on the oracle *)

(** The three calls before the loop return. *)
Definition startup_returns (env : Env) : Prop :=
  raises env [] SyncPlaywrightEnter = None
  /\ raises env [Returned SyncPlaywrightEnter VNone] (ChromiumLaunch true) = None
  /\ raises env [Returned SyncPlaywrightEnter VNone;
                 Returned (ChromiumLaunch true) VNone] NewPage = None.

(** Every [page.goto] raises an exception that [except Exception] catches. *)
Definition every_goto_fails (env : Env) : Prop :=
  forall past, exists e,
    raises env past (PageGoto target_url) = Some e /\ is_Exception e = true.

(** Every call returns, except possibly the two waits the script guards. *)
Definition only_guarded_waits_fail (env : Env) : Prop :=
  forall past c, c <> wait_toast -> c <> wait_svg -> raises env past c = None.

(** Every call of [drive] returns, except possibly the two guarded waits. *)
Definition drive_calls_return (env : Env) : Prop :=
  forall past c, drive_call c = true -> c <> wait_toast -> c <> wait_svg ->
                 raises env past c = None.

(** ** Concrete oracles *)

Definition timed_out : exn :=
  Exn PlaywrightTimeoutError "Timeout 30000ms exceeded.".
Definition refused : exn := Exn PlaywrightError "net::ERR_CONNECTION_REFUSED".

(** The oracle that answers by the call alone: [fails] says which calls
    raise, [found] is what every [count()] returns, every image is empty. *)
Definition env_where (fails : call -> option exn) (found : nat) : Env :=
  {| raises := fun _ c => fails c;
     matches := fun _ _ => found;
     pixels := fun _ _ => [] |}.

(** Every call returns and the container is on the page. *)
Definition env_ok : Env := env_where (fun _ => None) 1.

(** Every navigation times out (the load event never fires) although the
    page renders: every later call returns. *)
Definition env_slow_load : Env :=
  env_where (fun c => if is_goto c then Some timed_out else None) 1.

(** The connection is refused at every attempt and the title never shows. *)
Definition env_refused : Env :=
  env_where (fun c => if is_goto c then Some refused
                      else if bool_decide (c = wait_title) then Some timed_out
                      else None) 1.

Definition env_title_timeout : Env :=
  env_where (fun c => if bool_decide (c = wait_title) then Some timed_out else None) 1.

Definition env_toast_timeout : Env :=
  env_where (fun c => if bool_decide (c = wait_toast) then Some timed_out else None) 1.

Definition env_svg_timeout : Env :=
  env_where (fun c => if bool_decide (c = wait_svg) then Some timed_out else None) 1.

(** Every call returns and the container is not on the page. *)
Definition env_no_container : Env := env_where (fun _ => None) 0.

(** ** Further vocabulary *)

(** A navigation that raised an exception [except Exception] catches. *)
Definition is_caught_failure (ev : event) : bool :=
  match ev with
  | Threw (PageGoto _) e => is_Exception e
  | _ => false
  end.

(** How many failed attempts of a trace the loop caught. *)
Definition caught_failures (tr : list event) : nat :=
  length (List.filter is_caught_failure tr).

(** The steps of lines 24-35, none of which is inside a [try]. *)
Definition interaction_steps : list call :=
  [wait_title; click_youtube; fill_url; click_load].

(** Each status line of lines 25-62 is in the trace exactly when the call it
    reports returned, and each handler line exactly when the guarded wait
    raised. *)
Definition truthful_log (tr : list event) : Prop :=
  (PrintLine "App loaded." ∈ tr <-> Returned wait_title VNone ∈ tr)
  /\ (PrintLine "Video loading initiated..." ∈ tr <-> Returned click_load VNone ∈ tr)
  /\ (PrintLine "Video loaded toast confirmed." ∈ tr <-> Returned wait_toast VNone ∈ tr)
  /\ (PrintLine toast_missed ∈ tr <-> exists e, Threw wait_toast e ∈ tr)
  /\ (PrintLine "SVG element found." ∈ tr <-> Returned wait_svg VNone ∈ tr)
  /\ (PrintLine svg_missed ∈ tr <-> exists e, Threw wait_svg e ∈ tr)
  /\ (PrintLine "Full page screenshot taken." ∈ tr
      <-> exists img, Returned (PageScreenshot sheet_music_full) (VBytes img) ∈ tr)
  /\ (PrintLine detail_taken ∈ tr
      <-> exists img, Returned detail_call (VBytes img) ∈ tr).

(** A line that cannot come from the start-up or from the retry loop, whose
    lines begin with "Connect". *)
Definition drive_line (s : string) : bool :=
  match s with
  | String c _ => negb (Ascii.eqb c "C"%char)
  | EmptyString => true
  end.

(** An event that only [drive] can produce. *)
Definition drive_event (ev : event) : bool :=
  match ev with
  | PrintLine s => drive_line s
  | Returned c _ | Threw c _ => drive_call c
  | _ => false
  end.

(** Boolean readings of the memberships in [truthful_log]. *)
Definition line_in (s : string) (tr : list event) : bool :=
  existsb (fun ev => match ev with
                     | PrintLine s' => bool_decide (s' = s)
                     | _ => false
                     end) tr.

Definition returned_in (c : call) (tr : list event) : bool :=
  existsb (fun ev => match ev with
                     | Returned c' VNone => bool_decide (c' = c)
                     | _ => false
                     end) tr.

Definition threw_in (c : call) (tr : list event) : bool :=
  existsb (fun ev => match ev with
                     | Threw c' _ => bool_decide (c' = c)
                     | _ => false
                     end) tr.

Definition captured_in (c : call) (tr : list event) : bool :=
  existsb (fun ev => match ev with
                     | Returned c' (VBytes _) => bool_decide (c' = c)
                     | _ => false
                     end) tr.

Definition fill_error : exn := Exn PlaywrightError "Element is not an <input>".

(** Filling the URL field raises; every other call returns. *)
Definition env_fill_fails : Env :=
  env_where (fun c => if bool_decide (c = fill_url) then Some fill_error else None) 1.

(** The first navigation is interrupted from the keyboard. *)
Definition env_interrupted : Env :=
  env_where (fun c => if is_goto c then Some (Exn KeyboardInterrupt "") else None) 1.

(** A disk that holds one file of somebody else. *)
Definition notes_only : gmap string png := {["verification/notes.txt" := []]}.

(** The lines the retry loop prints for the failed attempts [es], the first
    of index [a]. *)
Definition failure_lines (a : nat) (es : list exn) : list string :=
  imap (fun i e => attempt_failed (a + i) e) es.

(** * Tactics *)

#[local] Arguments String.append : simpl never.
#[local] Arguments str : simpl never.

(** Case analysis on the next answer of the oracle. *)
Ltac next_call :=
  match goal with
  | |- context [raises ?env ?h ?c] =>
      let E := fresh "Hcall" in
      destruct (raises env h c) eqn:E; cbn -[connect drive] in *
  end.

Ltac solve_prefix :=
  repeat first [apply prefix_nil | apply prefix_cons | reflexivity].

(** Splits a membership in an explicit list into its cases. *)
Ltac in_cases H :=
  repeat first
    [ apply elem_of_nil in H; contradiction
    | apply elem_of_cons in H; destruct H as [H|H]; [ simplify_eq | ] ].

(** Closes the goal left at the end of one path through a script. *)
Ltac leaf :=
  cbn in *; intros;
  repeat match goal with
    | |- _ /\ _ => split
    | |- forall _, _ => intro
    | H : _ ∈ _ |- _ => progress in_cases H
    | Hall : forall past c, raises _ past c = None,
      Hc : raises _ _ _ = Some _ |- _ => rewrite Hall in Hc; discriminate
    end;
  first [ done | lia | by solve_prefix | by repeat constructor
        | by (eexists _, _; split) | by left | by right ].

(** Symbolic execution of [drive]: one goal per path, with the trace and
    the outcome of that path substituted everywhere. *)
Ltac drive_paths :=
  match goal with
  | |- context [drive ?env ?past] =>
      let dr := fresh "dr" in
      let Hd := fresh "Hd" in
      remember (drive env past) as dr eqn:Hd;
      cbv [drive await_toast await_svg capture_and_close try_except bind invoke
           print ret] in Hd;
      cbn in Hd;
      repeat match type of Hd with
        | context [raises ?env ?h ?c] =>
            let E := fresh "Hcall" in
            destruct (raises env h c) eqn:E; cbn in Hd
        | context [matches ?env ?h ?c] =>
            let k := fresh "k" in
            let E := fresh "Hcount" in
            destruct (matches env h c) as [|k] eqn:E; cbn in Hd
        end;
      subst dr; cbn [fst snd] in *
  end.

(** Tries the prefixes of an explicit trace as the first witness. *)
Ltac with_prefix tac :=
  first
    [ exists []; tac | eexists [_]; tac | eexists [_; _]; tac
    | eexists [_; _; _]; tac | eexists [_; _; _; _]; tac
    | eexists [_; _; _; _; _]; tac | eexists [_; _; _; _; _; _]; tac
    | eexists [_; _; _; _; _; _; _]; tac
    | eexists [_; _; _; _; _; _; _; _]; tac
    | eexists [_; _; _; _; _; _; _; _; _]; tac
    | eexists [_; _; _; _; _; _; _; _; _; _]; tac
    | eexists [_; _; _; _; _; _; _; _; _; _; _]; tac
    | eexists [_; _; _; _; _; _; _; _; _; _; _; _]; tac
    | eexists [_; _; _; _; _; _; _; _; _; _; _; _; _]; tac
    | eexists [_; _; _; _; _; _; _; _; _; _; _; _; _; _]; tac
    | eexists [_; _; _; _; _; _; _; _; _; _; _; _; _; _; _]; tac
    | eexists [_; _; _; _; _; _; _; _; _; _; _; _; _; _; _; _]; tac
    | eexists [_; _; _; _; _; _; _; _; _; _; _; _; _; _; _; _; _]; tac ].

Ltac transfer Hiff Hd :=
  split;
  [ let H := fresh "H" in
    intros H; apply Hiff in H; [|done]; apply Hd in H;
    first [ by apply Hiff
          | let x := fresh "x" in destruct H as [x H]; exists x; by apply Hiff ]
  | let H := fresh "H" in
    intros H; try destruct H as [? H]; apply Hiff in H; [|done];
    apply Hiff; [done|]; apply Hd; eauto ].

(** * Proofs *)

(** ** The retry loop *)

Lemma for_in_attempt_shape env n a past :
  exists es tail r,
    for_in (seq a n) (attempt env) past = (failed_attempts a es ++ tail, r)
    /\ Forall (fun e => is_Exception e = true) es
    /\ loop_end n (length es) tail r.
Proof.
  revert a past. induction n as [|n IH]; intros a past.
  - exists [], [], (Normal tt). repeat split; [constructor | by constructor].
  - cbn [seq for_in].
    unfold bind at 1. unfold attempt at 1.
    unfold try_except_Exception, bind, invoke, print, sleep, ret.
    destruct (raises env past (PageGoto target_url)) as [e|] eqn:Hg; cbn.
    + destruct (is_Exception e) eqn:He; cbn.
      * destruct (IH (S a)
          (past ++ [Threw (PageGoto target_url) e; PrintLine (attempt_failed a e); Slept 2]))
          as (es & tail & r & Heq & Hes & Hend).
        rewrite Heq. exists (e :: es), tail, r. repeat split.
        -- by constructor.
        -- destruct Hend; [apply loop_exhausted | apply loop_break
                           | apply loop_interrupted]; cbn; auto; lia.
      * exists [], [Threw (PageGoto target_url) e], (Raised e).
        repeat split; [constructor|]. apply loop_interrupted; [cbn; lia | done].
    + exists [], [Returned (PageGoto target_url) VNone], (Normal tt).
      repeat split; [constructor|]. apply loop_break. cbn; lia.
Qed.

Lemma connect_shape env n past :
  exists es tail r,
    connect env n past = (failed_attempts 0 es ++ tail, r)
    /\ Forall (fun e => is_Exception e = true) es
    /\ loop_end n (length es) tail r.
Proof. apply for_in_attempt_shape. Qed.

(** ** The ways a run of [verify_sheet_music] can go *)

Lemma verify_sheet_music_run env :
  sheet_run env (verify_sheet_music env []).1 (verify_sheet_music env []).2.
Proof.
  cbv [verify_sheet_music with_sync_playwright bind invoke print ret].
  cbn -[connect drive].
  destruct (raises env [] SyncPlaywrightEnter) eqn:H0; cbn -[connect drive];
    [by apply enter_failed|].
  next_call; [by apply launch_failed|].
  next_call; [by apply new_page_failed|].
  fold prologue.
  destruct (connect_shape env 10 prologue) as (es & tail & r & Heq & Hes & Hend).
  rewrite Heq. destruct Hend as [Hn|Hn|e Hn He]; cbn -[connect drive].
  - destruct (drive env _) as [d rd] eqn:Hd.
    pose proof (driven env es [] Hes Heq (or_introl (conj eq_refl Hn))) as R.
    cbn -[connect drive] in R. rewrite app_nil_r in *.
    rewrite Hd in R. cbn in R |- *. rewrite <- ?app_assoc. exact R.
  - destruct (drive env _) as [d rd] eqn:Hd.
    pose proof (driven env es _ Hes Heq (or_intror (conj eq_refl Hn))) as R.
    cbn -[connect drive] in R.
    rewrite Hd in R. cbn in R |- *. rewrite <- ?app_assoc in *. exact R.
  - pose proof (connect_interrupted env es e Hes Hn He) as R.
    cbn in R |- *. rewrite <- ?app_assoc. exact R.
Qed.

(** ** Teardown *)













(** ** verify.py *)

(** C10. [run] navigates once, to port 4173, without retry and without
    waiting for anything on the page.  Its calls are an initial segment of
    launch, new page, goto, screenshot, close; a navigation that raises ends
    the run after that single attempt, with nothing written; a navigation
    that returns is followed by a sleep of 2 seconds and then, without any
    test, by the screenshot to [verification/screenshot.png]; when that
    screenshot returns it is the only file written and [browser.close()] is
    called; and when no call raises the trace is exactly these steps. *)
Theorem run_single_navigation_then_screenshot (env : Env) :
  let tr := (run env []).1 in
  let r := (run env []).2 in
  calls tr `prefix_of` run_script
  /\ (forall e, Threw (PageGoto preview_url) e ∈ tr ->
        r = Raised e /\ goto_attempts tr = 1 /\ written tr = [])
  /\ (forall v, Returned (PageGoto preview_url) v ∈ tr ->
        exists ev rest,
          tr = [Returned SyncPlaywrightEnter VNone;
                Returned (ChromiumLaunch true) VNone;
                Returned NewPage VNone;
                Returned (PageGoto preview_url) VNone;
                Slept 2; ev] ++ rest
          /\ call_of ev = Some (PageScreenshot screenshot_path))
  /\ (forall img, Returned (PageScreenshot screenshot_path) (VBytes img) ∈ tr ->
        written tr = [(screenshot_path, img)] /\ BrowserClose ∈ calls tr)
  /\ (total_sleep tr = 0 \/ total_sleep tr = 2)%Z
  /\ ((forall past c, raises env past c = None) ->
        tr = [Returned SyncPlaywrightEnter VNone;
              Returned (ChromiumLaunch true) VNone;
              Returned NewPage VNone;
              Returned (PageGoto preview_url) VNone;
              Slept 2;
              Returned (PageScreenshot screenshot_path)
                       (VBytes (pixels env
                          [Returned SyncPlaywrightEnter VNone;
                           Returned (ChromiumLaunch true) VNone;
                           Returned NewPage VNone;
                           Returned (PageGoto preview_url) VNone;
                           Slept 2] (PageScreenshot screenshot_path)));
              Returned BrowserClose VNone;
              SyncPlaywrightExit]
        /\ r = Normal tt).
Proof.
  cbv [run with_sync_playwright bind invoke sleep ret]. cbn.
  repeat next_call; leaf.
Qed.

(** ** From a run to its [drive] part *)

Lemma failed_attempts_call a es ev c :
  ev ∈ failed_attempts a es -> call_of ev = Some c -> c = PageGoto target_url.
Proof.
  revert a; induction es as [|e es IH]; intros a H Hc; cbn in H.
  - by apply elem_of_nil in H.
  - apply elem_of_cons in H as [->|H]; [cbn in Hc; congruence|].
    apply elem_of_cons in H as [->|H]; [done|].
    apply elem_of_cons in H as [->|H]; [done|]. by eapply IH.
Qed.

(** A run in which a call of [drive] shows up did reach [drive]. *)
Lemma run_reached_drive env ev c :
  call_of ev = Some c -> drive_call c = true ->
  ev ∈ (verify_sheet_music env []).1 ->
  exists past,
    (verify_sheet_music env []).1 = past ++ (drive env past).1 ++ [SyncPlaywrightExit]
    /\ (verify_sheet_music env []).2 = (drive env past).2
    /\ ev ∈ (drive env past).1
    /\ connected_past past.
Proof.
  intros Hc Hd Hin.
  destruct (verify_sheet_music_run env)
    as [e H|e H|e H|es e Hes Hn He|es tail Hes Heq Ht past].
  - in_cases Hin; cbn in Hc; by simplify_eq.
  - in_cases Hin; cbn in Hc; by simplify_eq.
  - in_cases Hin; cbn in Hc; by simplify_eq.
  - exfalso. rewrite !elem_of_app in Hin. destruct Hin as [Hin|[Hin|Hin]].
    + cbv [prologue] in Hin. in_cases Hin; cbn in Hc; by simplify_eq.
    + pose proof (failed_attempts_call _ _ _ _ Hin Hc) as ->. done.
    + in_cases Hin; cbn in Hc; by simplify_eq.
  - exists past. repeat split; [|by exists es, tail].
    rewrite !elem_of_app in Hin. destruct Hin as [Hin|[Hin|Hin]]; [|done|].
    + exfalso. subst past. rewrite !elem_of_app in Hin.
      destruct Hin as [Hin|[Hin|Hin]].
      * cbv [prologue] in Hin. in_cases Hin; cbn in Hc; by simplify_eq.
      * pose proof (failed_attempts_call _ _ _ _ Hin Hc) as ->. done.
      * destruct Ht as [[-> _]|[-> _]]; in_cases Hin; cbn in Hc; by simplify_eq.
    + exfalso. in_cases Hin; cbn in Hc; by simplify_eq.
Qed.

(** ** The guarded waits *)

Lemma drive_toast_absorbed env past e :
  Threw wait_toast e ∈ (drive env past).1 ->
  exists pre ev post,
    (drive env past).1
      = pre ++ [Threw wait_toast e; PrintLine toast_missed; ev] ++ post
    /\ call_of ev = Some wait_svg.
Proof.
  intros H. drive_paths; in_cases H.
  all: with_prefix ltac:(by (eexists _, _; split; [reflexivity|reflexivity])).
Qed.

Lemma connect_first_try env n past :
  raises env past (PageGoto target_url) = None ->
  connect env (S n) past = ([Returned (PageGoto target_url) VNone], Normal tt).
Proof.
  intros H. unfold connect, range. cbn [seq for_in].
  unfold bind at 1. unfold attempt at 1.
  unfold try_except_Exception, bind, invoke, ret. by rewrite H.
Qed.

Lemma verify_sheet_music_unfold env oc :
  raises env [] SyncPlaywrightEnter = None ->
  raises env [Returned SyncPlaywrightEnter VNone] (ChromiumLaunch true) = None ->
  raises env [Returned SyncPlaywrightEnter VNone;
              Returned (ChromiumLaunch true) VNone] NewPage = None ->
  connect env 10 prologue = (oc, Normal tt) ->
  verify_sheet_music env []
  = (prologue ++ oc ++ (drive env (prologue ++ oc)).1 ++ [SyncPlaywrightExit],
     (drive env (prologue ++ oc)).2).
Proof.
  intros H0 H1 H2 Hc.
  cbv [verify_sheet_music with_sync_playwright bind invoke print ret].
  cbn -[connect drive]. rewrite H0. cbn -[connect drive].
  rewrite H1. cbn -[connect drive]. rewrite H2. cbn -[connect drive].
  fold prologue. rewrite Hc.
  change (Returned SyncPlaywrightEnter VNone :: Returned (ChromiumLaunch true) VNone
            :: Returned NewPage VNone
            :: PrintLine ("Connecting to localhost:" +:+ str port) :: oc)
    with (prologue ++ oc).
  destruct (drive env (prologue ++ oc)) as [d rd]. cbn.
  by rewrite <- !app_assoc.
Qed.

Lemma only_guarded_waits_fail_drive env :
  only_guarded_waits_fail env -> drive_calls_return env.
Proof. intros H past c _. apply H. Qed.

Lemma drive_all_steps env past :
  drive_calls_return env ->
  (drive env past).2 = Normal tt
  /\ exists detail, calls (drive env past).1 = drive_script detail.
Proof.
  intros Hall.
  assert (Hret : forall h c e, raises env h c = Some e -> drive_call c = true ->
                   c <> wait_toast -> c <> wait_svg -> False).
  { intros h c e He H0 H1 H2. rewrite (Hall h c H0 H1 H2) in He. discriminate. }
  drive_paths;
    try (exfalso;
         match goal with
         | H : raises _ _ _ = Some _ |- _ => by apply (Hret _ _ _ H)
         end).
  all: split; [done|].
  all: first [ by exists true | by exists false ].
Qed.

Lemma calls_app tr1 tr2 : calls (tr1 ++ tr2) = calls tr1 ++ calls tr2.
Proof. apply omap_app. Qed.

Lemma run_all_steps env :
  only_guarded_waits_fail env ->
  (verify_sheet_music env []).2 = Normal tt
  /\ exists detail, calls (verify_sheet_music env []).1 = sheet_script 1 detail.
Proof.
  intros Hall.
  rewrite (verify_sheet_music_unfold env [Returned (PageGoto target_url) VNone]);
    try (by apply Hall); [|by apply connect_first_try, Hall].
  destruct (drive_all_steps env (prologue ++ [Returned (PageGoto target_url) VNone])
              (only_guarded_waits_fail_drive env Hall))
    as [Hr [detail Hd]].
  split; [done|]. exists detail. cbn [fst].
  rewrite !calls_app, Hd. by destruct detail.
Qed.

Lemma drive_raise_origin env past e :
  (drive env past).2 = Raised e ->
  exists c, last (drive env past).1 = Some (Threw c e)
            /\ c <> wait_toast /\ c <> wait_svg /\ drive_call c = true.
Proof.
  intros H. drive_paths; simplify_eq.
  all: eexists; split; [reflexivity|]; by repeat split.
Qed.

Lemma drive_title_propagates env past e :
  Threw wait_title e ∈ (drive env past).1 ->
  (drive env past).2 = Raised e
  /\ last (drive env past).1 = Some (Threw wait_title e).
Proof. intros H. drive_paths; in_cases H. by split. Qed.

Lemma drive_svg_absorbed env past e :
  Threw wait_svg e ∈ (drive env past).1 ->
  (exists pre ev post,
     (drive env past).1
       = pre ++ [Threw wait_svg e; PrintLine svg_missed; ev] ++ post
     /\ call_of ev = Some (PageScreenshot sheet_music_full))
  /\ ((drive env past).2 = Normal tt
      \/ exists c e', (drive env past).2 = Raised e'
                      /\ last (drive env past).1 = Some (Threw c e')
                      /\ capture_call c = true).
Proof.
  intros H. drive_paths; in_cases H.
  all: split;
    [ with_prefix ltac:(by (eexists _, _; split; [reflexivity|reflexivity]))
    | first [ by left | right; by eexists _, _ ] ].
Qed.

Lemma followed_by_in_run past d evs c :
  followed_by d evs c -> followed_by (past ++ d ++ [SyncPlaywrightExit]) evs c.
Proof.
  intros (pre & ev & post & -> & Hev).
  exists (past ++ pre), ev, (post ++ [SyncPlaywrightExit]).
  split; [|done]. by rewrite <- !app_assoc.
Qed.

Lemma raised_by_in_run past d c e :
  last d = Some (Threw c e) -> raised_by (past ++ d ++ [SyncPlaywrightExit]) c e.
Proof.
  intros H. apply last_Some in H as [pre ->]. right.
  exists (past ++ pre). by rewrite <- !app_assoc.
Qed.

Lemma run_toast_absorbed env e :
  Threw wait_toast e ∈ (verify_sheet_music env []).1 ->
  followed_by (verify_sheet_music env []).1
    [Threw wait_toast e; PrintLine toast_missed] wait_svg.
Proof.
  intros Hin.
  destruct (run_reached_drive env (Threw wait_toast e) wait_toast eq_refl eq_refl Hin)
    as (past & Htr & _ & Hd & _).
  rewrite Htr. apply followed_by_in_run.
  destruct (drive_toast_absorbed env past e Hd) as (pre & ev & post & Heq & Hev).
  by exists pre, ev, post.
Qed.

Lemma run_svg_absorbed env e :
  Threw wait_svg e ∈ (verify_sheet_music env []).1 ->
  followed_by (verify_sheet_music env []).1
    [Threw wait_svg e; PrintLine svg_missed] (PageScreenshot sheet_music_full).
Proof.
  intros Hin.
  destruct (run_reached_drive env (Threw wait_svg e) wait_svg eq_refl eq_refl Hin)
    as (past & Htr & _ & Hd & _).
  rewrite Htr. apply followed_by_in_run.
  destruct (drive_svg_absorbed env past e Hd) as [(pre & ev & post & Heq & Hev) _].
  by exists pre, ev, post.
Qed.

Lemma run_raise_origin env e :
  (verify_sheet_music env []).2 = Raised e ->
  exists c, c <> wait_toast /\ c <> wait_svg
            /\ raised_by (verify_sheet_music env []).1 c e.
Proof.
  destruct (verify_sheet_music_run env)
    as [e' H|e' H|e' H|es e' Hes Hn He|es tail Hes Heq Ht past]; intros Hr.
  - simplify_eq. exists SyncPlaywrightEnter. repeat split; [done..|by left].
  - simplify_eq. exists (ChromiumLaunch true). repeat split; [done..|].
    right. by exists [Returned SyncPlaywrightEnter VNone].
  - simplify_eq. exists NewPage. repeat split; [done..|].
    right. by exists [Returned SyncPlaywrightEnter VNone;
                      Returned (ChromiumLaunch true) VNone].
  - simplify_eq. exists (PageGoto target_url). repeat split; [done..|].
    right. exists (prologue ++ failed_attempts 0 es). by rewrite <- !app_assoc.
  - destruct (drive_raise_origin env past e Hr) as (c & Hl & H1 & H2 & _).
    exists c. repeat split; [done..|]. by apply raised_by_in_run.
Qed.

Lemma run_title_propagates env e :
  Threw wait_title e ∈ (verify_sheet_music env []).1 ->
  (verify_sheet_music env []).2 = Raised e
  /\ raised_by (verify_sheet_music env []).1 wait_title e.
Proof.
  intros Hin.
  destruct (run_reached_drive env (Threw wait_title e) wait_title eq_refl eq_refl Hin)
    as (past & Htr & Hr & Hd & _).
  destruct (drive_title_propagates env past e Hd) as [H1 H2].
  rewrite Htr, Hr. split; [done|]. by apply raised_by_in_run.
Qed.

(** C5. A timeout of the toast wait does not abort the sequence.  When the
    toast wait raises, in any run, the trace goes on with the log line of
    the handler and then with the next step, the wait for the SVG; and when no
    call other than the two guarded waits raises, every step of the script
    is executed and the function returns, whether or not those waits timed
    out. *)
Theorem best_effort_wait_does_not_abort (env : Env) :
  let tr := (verify_sheet_music env []).1 in
  let r := (verify_sheet_music env []).2 in
  (forall e, Threw wait_toast e ∈ tr ->
     followed_by tr [Threw wait_toast e; PrintLine toast_missed] wait_svg)
  /\ (only_guarded_waits_fail env ->
        r = Normal tt /\ exists detail, calls tr = sheet_script 1 detail).
Proof. split; [apply run_toast_absorbed | apply run_all_steps]. Qed.

(** C3 (amended). The two waits the script wraps in [try]/[except:] never
    raise past the function: whatever exception leaves [verify_sheet_music]
    was thrown by a call other than the toast wait and the SVG wait, and a
    raise of either is followed by the handler's log line and the next
    step.  The wait for the title is not wrapped: when it raises, that
    exception leaves the function and ends the run. *)
Theorem guarded_waits_never_escape (env : Env) :
  let tr := (verify_sheet_music env []).1 in
  let r := (verify_sheet_music env []).2 in
  (forall e, r = Raised e ->
     exists c, c <> wait_toast /\ c <> wait_svg /\ raised_by tr c e)
  /\ (forall e, Threw wait_toast e ∈ tr ->
        followed_by tr [Threw wait_toast e; PrintLine toast_missed] wait_svg)
  /\ (forall e, Threw wait_svg e ∈ tr ->
        followed_by tr [Threw wait_svg e; PrintLine svg_missed]
                    (PageScreenshot sheet_music_full))
  /\ (forall e, Threw wait_title e ∈ tr ->
        r = Raised e /\ raised_by tr wait_title e).
Proof.
  repeat split.
  - apply run_raise_origin.
  - apply run_toast_absorbed.
  - apply run_svg_absorbed.
  - by apply run_title_propagates.
  - by apply run_title_propagates.
Qed.

(** ** The captures *)

Lemma written_app tr1 tr2 : written (tr1 ++ tr2) = written tr1 ++ written tr2.
Proof. apply omap_app. Qed.

Lemma written_failed_attempts a es : written (failed_attempts a es) = [].
Proof. revert a; induction es as [|e es IH]; intros a; cbn; [done | apply IH]. Qed.

(** The files after a trace are the files before it with its writes applied
    in order. *)
Lemma files_world_after w tr :
  files (world_after w tr) = foldl store (files w) (written tr).
Proof.
  revert w; induction tr as [|ev tr IH]; intros w; [done|].
  cbn [world_after foldl]. fold (world_after (apply_event w ev) tr).
  rewrite IH. clear IH.
  destruct ev as [c v|c e|line|z|]; try done.
  destruct c; try done.
  - destruct v; try done.
  - destruct v; try done.
  - cbn. by destruct (live_browsers w).
Qed.

Lemma written_connected_past past : connected_past past -> written past = [].
Proof.
  intros (es & tail & -> & Ht).
  rewrite !written_app, written_failed_attempts.
  by destruct Ht as [[-> _]|[-> _]].
Qed.

Lemma written_in_run past d :
  connected_past past ->
  written (past ++ d ++ [SyncPlaywrightExit]) = written d.
Proof.
  intros Hp. rewrite !written_app, (written_connected_past past Hp).
  cbn. by rewrite app_nil_r.
Qed.

Lemma drive_svg_capture env past e :
  Threw wait_svg e ∈ (drive env past).1 ->
  drive_calls_return env ->
  exists img, (sheet_music_full, img) ∈ written (drive env past).1.
Proof.
  intros H Hall.
  assert (Hret : forall h c e, raises env h c = Some e -> drive_call c = true ->
                   c <> wait_toast -> c <> wait_svg -> False).
  { intros h c e' He H0 H1 H2. rewrite (Hall h c H0 H1 H2) in He. discriminate. }
  drive_paths; in_cases H;
    try (exfalso;
         match goal with
         | H : raises _ _ _ = Some _ |- _ => by apply (Hret _ _ _ H)
         end).
  all: eexists; cbn; by repeat constructor.
Qed.

(** C4 (amended). A timeout of the wait for the rendered score is absorbed.
    When the SVG wait raises, the handler's line is logged and the full-page
    screenshot is taken next; the timeout does not make the run fail: the
    function returns normally unless one of the later calls (a capture, the
    count or [browser.close()]) raises, and when no call other than the two
    guarded waits raises the process exits with status 0 and the full-page
    file has been written. *)
Theorem svg_timeout_still_captures (env : Env) (e : exn) :
  let tr := (verify_sheet_music env []).1 in
  let r := (verify_sheet_music env []).2 in
  Threw wait_svg e ∈ tr ->
  followed_by tr [Threw wait_svg e; PrintLine svg_missed]
              (PageScreenshot sheet_music_full)
  /\ (r = Normal tt
      \/ exists c e', capture_call c = true /\ r = Raised e' /\ raised_by tr c e')
  /\ (only_guarded_waits_fail env ->
        exit_ok r = true /\ exists img, (sheet_music_full, img) ∈ written tr).
Proof.
  intros tr r Hin. split; [by apply run_svg_absorbed|].
  destruct (run_reached_drive env (Threw wait_svg e) wait_svg eq_refl eq_refl Hin)
    as (past & Htr & Hr & Hd & Hp).
  subst tr r. rewrite Htr, Hr. split.
  - destruct (drive_svg_absorbed env past e Hd) as [_ [Hn|(c & e' & Hr' & Hl & Hc)]].
    + by left.
    + right. exists c, e'. repeat split; [done..|]. by apply raised_by_in_run.
  - intros Hall. split.
    + destruct (drive_all_steps env past (only_guarded_waits_fail_drive env Hall))
        as [-> _]. done.
    + rewrite (written_in_run past _ Hp).
      by apply (drive_svg_capture env past e Hd), only_guarded_waits_fail_drive.
Qed.

Lemma calls_connected_past past c :
  connected_past past -> c ∈ calls past -> drive_call c = false.
Proof.
  intros (es & tail & -> & Ht) Hin.
  rewrite !calls_app, !elem_of_app in Hin. destruct Hin as [Hin|[Hin|Hin]].
  - cbn in Hin. in_cases Hin; done.
  - apply list_elem_of_omap in Hin as (ev & Hev & Hc).
    by rewrite (failed_attempts_call _ _ _ _ Hev Hc).
  - destruct Ht as [[-> _]|[-> _]]; cbn in Hin; in_cases Hin; done.
Qed.

Lemma event_in_connected_past past ev c :
  connected_past past -> ev ∈ past -> call_of ev = Some c -> drive_call c = false.
Proof.
  intros Hp Hin Hc. apply (calls_connected_past past c Hp).
  apply list_elem_of_omap. by exists ev.
Qed.

Lemma drive_count_zero env past :
  Returned count_call (VInt 0) ∈ (drive env past).1 ->
  (exists pre ev,
     (drive env past).1 = pre ++ [Returned count_call (VInt 0); ev]
     /\ call_of ev = Some BrowserClose)
  /\ (detail_call ∉ calls (drive env past).1)
  /\ ((drive env past).2 = Normal tt
      \/ exists e, (drive env past).2 = Raised e
                   /\ last (drive env past).1 = Some (Threw BrowserClose e)).
Proof.
  intros H. drive_paths; in_cases H.
  all: split;
    [ with_prefix ltac:(by (eexists _; split; [reflexivity|reflexivity])) |].
  all: split; [ intros Hx; cbn in Hx; by in_cases Hx |].
  all: first [ by left | right; by eexists ].
Qed.

Lemma drive_count_positive env past k :
  Returned count_call (VInt (S k)) ∈ (drive env past).1 ->
  followed_by (drive env past).1 [Returned count_call (VInt (S k))] detail_call
  /\ (forall img,
       Returned detail_call (VBytes img) ∈ (drive env past).1 ->
       followed_by (drive env past).1
         [Returned detail_call (VBytes img); PrintLine detail_taken] BrowserClose
       /\ last (written (drive env past).1) = Some (sheet_music_detail, img)).
Proof.
  intros H. drive_paths; in_cases H.
  all: split;
    [ with_prefix ltac:(by (eexists _, _; split; [reflexivity|reflexivity])) |].
  all: intros img Himg; in_cases Himg.
  all: split;
    [ with_prefix ltac:(by (eexists _, _; split; [reflexivity|reflexivity]))
    | done ].
Qed.

Lemma lookup_foldl_store_last (m : gmap string png) ws path img :
  last ws = Some (path, img) -> foldl store m ws !! path = Some img.
Proof.
  intros H. apply last_Some in H as [ws' ->].
  rewrite foldl_app. cbn. unfold store at 1. cbn. apply lookup_insert_eq.
Qed.

(** C6 (amended). The element capture is taken only when the locator
    matches.  When [count()] returns 0 the next and last call is
    [browser.close()]: no element screenshot is taken, nothing is printed
    about the skip, and the run fails only if [browser.close()] itself
    raises.  When [count()] returns a positive number the element
    screenshot is asked for at [verification/sheet_music_detail.png]; when
    that call returns, the file holds the image, the line "Detail screenshot
    taken." is printed, and [browser.close()] comes next. *)
Theorem element_capture_is_best_effort (env : Env) (fs : gmap string png) :
  let tr := (verify_sheet_music env []).1 in
  let r := (verify_sheet_music env []).2 in
  (Returned count_call (VInt 0) ∈ tr ->
     (exists pre ev,
        tr = pre ++ [Returned count_call (VInt 0); ev; SyncPlaywrightExit]
        /\ call_of ev = Some BrowserClose)
     /\ (detail_call ∉ calls tr)
     /\ (r = Normal tt \/ exists e, r = Raised e /\ raised_by tr BrowserClose e))
  /\ (forall k, Returned count_call (VInt (S k)) ∈ tr ->
        followed_by tr [Returned count_call (VInt (S k))] detail_call
        /\ (forall img,
             Returned detail_call (VBytes img) ∈ tr ->
             followed_by tr
               [Returned detail_call (VBytes img); PrintLine detail_taken]
               BrowserClose
             /\ files (world_after (idle fs) tr) !! sheet_music_detail = Some img)).
Proof.
  intros tr r. split.
  - intros Hin.
    destruct (run_reached_drive env (Returned count_call (VInt 0)) count_call
                eq_refl eq_refl Hin)
      as (past & Htr & Hr & Hd & Hp).
    destruct (drive_count_zero env past Hd) as ((pre & ev & Heq & Hev) & Hno & Hres).
    subst tr r. rewrite Htr, Hr. repeat split.
    + exists (past ++ pre), ev. split; [|done].
      rewrite Heq. by rewrite <- !app_assoc.
    + rewrite !calls_app, !elem_of_app. intros [Hx|[Hx|Hx]].
      * by pose proof (calls_connected_past past _ Hp Hx).
      * done.
      * cbn in Hx. by in_cases Hx.
    + destruct Hres as [Hn|(e & He & Hl)]; [by left|].
      right. exists e. split; [done|]. by apply raised_by_in_run.
  - intros k Hin.
    destruct (run_reached_drive env (Returned count_call (VInt (S k))) count_call
                eq_refl eq_refl Hin)
      as (past & Htr & Hr & Hd & Hp).
    destruct (drive_count_positive env past k Hd) as [Hf Himg].
    subst tr. rewrite Htr. split; [by apply followed_by_in_run|].
    intros img Hin'.
    assert (Hd' : Returned detail_call (VBytes img) ∈ (drive env past).1).
    { rewrite !elem_of_app in Hin'. destruct Hin' as [Hx|[Hx|Hx]]; [|done|].
      - exfalso.
        assert (Hc : detail_call ∈ calls past).
        { apply list_elem_of_omap. by exists (Returned detail_call (VBytes img)). }
        by pose proof (calls_connected_past past _ Hp Hc).
      - exfalso. by in_cases Hx. }
    destruct (Himg img Hd') as [Hf' Hl]. split; [by apply followed_by_in_run|].
    rewrite files_world_after, (written_in_run past _ Hp).
    by apply lookup_foldl_store_last.
Qed.

(** ** Order of the steps *)

Lemma calls_failed_attempts a es :
  calls (failed_attempts a es) = replicate (length es) (PageGoto target_url).
Proof.
  revert a; induction es as [|e es IH]; intros a; [done|].
  cbn. f_equal. apply IH.
Qed.



Lemma filter_replicate_goto k :
  List.filter not_goto (replicate k (PageGoto target_url)) = []
  /\ List.filter is_goto (replicate k (PageGoto target_url))
     = replicate k (PageGoto target_url).
Proof. induction k as [|k [IH1 IH2]]; [done|]. cbn. by rewrite IH2. Qed.





(** ** Running twice *)

Lemma foldl_store_union (m : gmap string png) ws :
  foldl store m ws = list_to_map (reverse ws) ∪ m.
Proof.
  induction ws as [|[path img] ws IH] using rev_ind.
  - cbn. by rewrite (left_id_L ∅ (∪)).
  - rewrite foldl_app, reverse_snoc, IH. cbn [foldl]. unfold store.
    cbn [fst snd list_to_map foldr uncurry].
    by rewrite insert_union_l.
Qed.



Lemma drive_written_paths env past :
  (written (drive env past).1).*1 `prefix_of` [sheet_music_full; sheet_music_detail].
Proof. drive_paths; cbn; solve_prefix. Qed.

Lemma sheet_written_paths env :
  (written (verify_sheet_music env []).1).*1
    `prefix_of` [sheet_music_full; sheet_music_detail].
Proof.
  destruct (verify_sheet_music_run env)
    as [e H|e H|e H|es e Hes Hn He|es tail Hes Heq Ht past].
  - cbn. solve_prefix.
  - cbn. solve_prefix.
  - cbn. solve_prefix.
  - rewrite !written_app, written_failed_attempts. cbn. solve_prefix.
  - rewrite written_in_run; [apply drive_written_paths | by exists es, tail].
Qed.

Lemma run_written_paths env :
  (written (run env []).1).*1 `prefix_of` [screenshot_path].
Proof.
  cbv [run with_sync_playwright bind invoke sleep ret]. cbn.
  repeat next_call; cbn; solve_prefix.
Qed.






(** ** A target that never answers *)

Lemma for_in_all_fail env n a past :
  every_goto_fails env ->
  exists es,
    length es = n
    /\ Forall (fun e => is_Exception e = true) es
    /\ for_in (seq a n) (attempt env) past = (failed_attempts a es, Normal tt).
Proof.
  intros Hfail. revert a past. induction n as [|n IH]; intros a past.
  - by exists [].
  - cbn [seq for_in].
    unfold bind at 1. unfold attempt at 1.
    unfold try_except_Exception, bind, invoke, print, sleep, ret.
    destruct (Hfail past) as (e & -> & He). cbn. rewrite He. cbn.
    destruct (IH (S a)
      (past ++ [Threw (PageGoto target_url) e; PrintLine (attempt_failed a e); Slept 2]))
      as (es & Hlen & Hes & ->).
    exists (e :: es). repeat split; [cbn; lia | by constructor].
Qed.

Lemma last_failed_attempts a es :
  es <> [] -> last (failed_attempts a es) = Some (Slept 2).
Proof.
  revert a; induction es as [|e es IH]; intros a Hne; [done|].
  destruct es as [|e' es]; [done|].
  specialize (IH (S a) ltac:(done)). cbn in IH |- *. exact IH.
Qed.

Lemma total_sleep_app tr1 tr2 :
  total_sleep (tr1 ++ tr2) = (total_sleep tr1 + total_sleep tr2)%Z.
Proof.
  induction tr1 as [|ev tr1 IH]; [done|]. cbn. destruct ev; cbn; fold (total_sleep (tr1 ++ tr2)); fold (total_sleep tr1); lia.
Qed.

Lemma total_sleep_failed_attempts a es :
  total_sleep (failed_attempts a es) = (2 * Z.of_nat (length es))%Z.
Proof.
  revert a; induction es as [|e es IH]; intros a; [done|].
  cbn [failed_attempts length]. cbn. fold (total_sleep (failed_attempts (S a) es)).
  rewrite IH. lia.
Qed.

Lemma drive_starts_with_title env past :
  exists ev rest,
    (drive env past).1 = PrintLine waiting_for_title :: ev :: rest
    /\ call_of ev = Some wait_title.
Proof. drive_paths; by eexists _, _. Qed.

Lemma drive_no_sleep env past : total_sleep (drive env past).1 = 0%Z.
Proof. drive_paths; done. Qed.

Lemma drive_writes_full env past :
  drive_calls_return env ->
  exists img, (sheet_music_full, img) ∈ written (drive env past).1.
Proof.
  intros Hall.
  assert (Hret : forall h c e, raises env h c = Some e -> drive_call c = true ->
                   c <> wait_toast -> c <> wait_svg -> False).
  { intros h c e' He H0 H1 H2. rewrite (Hall h c H0 H1 H2) in He. discriminate. }
  drive_paths;
    try (exfalso;
         match goal with
         | H : raises _ _ _ = Some _ |- _ => by apply (Hret _ _ _ H)
         end).
  all: eexists; cbn; by repeat constructor.
Qed.

(** When every attempt fails, the run is the start-up, ten failed attempts
    and then [drive], with [drive]'s outcome. *)
Lemma run_after_exhaustion env :
  startup_returns env -> every_goto_fails env ->
  exists es,
    length es = 10
    /\ Forall (fun e => is_Exception e = true) es
    /\ connect env 10 prologue = (failed_attempts 0 es, Normal tt)
    /\ verify_sheet_music env []
       = (prologue ++ failed_attempts 0 es
            ++ (drive env (prologue ++ failed_attempts 0 es)).1
            ++ [SyncPlaywrightExit],
          (drive env (prologue ++ failed_attempts 0 es)).2).
Proof.
  intros (H0 & H1 & H2) Hfail.
  destruct (for_in_all_fail env 10 0 prologue Hfail) as (es & Hlen & Hes & Hc).
  exists es. repeat split; [done..|].
  by apply verify_sheet_music_unfold.
Qed.

Lemma drive_no_goto env past :
  List.filter is_goto (calls (drive env past).1) = [].
Proof. drive_paths; done. Qed.

Lemma goto_attempts_failed a es :
  length (List.filter is_goto (calls (failed_attempts a es))) = length es.
Proof.
  rewrite calls_failed_attempts.
  destruct (filter_replicate_goto (length es)) as [_ ->]. apply length_replicate.
Qed.

Lemma drive_writes_detail env past k :
  drive_calls_return env ->
  Returned count_call (VInt (S k)) ∈ (drive env past).1 ->
  exists img, (sheet_music_detail, img) ∈ written (drive env past).1.
Proof.
  intros Hall H.
  assert (Hret : forall h c e, raises env h c = Some e -> drive_call c = true ->
                   c <> wait_toast -> c <> wait_svg -> False).
  { intros h c e' He H0 H1 H2. rewrite (Hall h c H0 H1 H2) in He. discriminate. }
  drive_paths; in_cases H;
    try (exfalso;
         match goal with
         | H : raises _ _ _ = Some _ |- _ => by apply (Hret _ _ _ H)
         end).
  all: eexists; cbn; by repeat constructor.
Qed.

(** C2 (amended). When every navigation attempt fails, exactly ten attempts
    are made, each followed by the line of the handler and a sleep of 2
    seconds, and nothing is raised at the end of the loop: the next thing
    the run does is the line "Waiting for title..." and the wait for the
    title.  An exception that leaves the function then comes from a later
    step, and when the later steps return the process exits with status 0,
    the full-page screenshot has been written, and so has the element
    screenshot if the container was found. *)
Theorem exhausted_retries_go_on_to_title_wait (env : Env) :
  startup_returns env -> every_goto_fails env ->
  let tr := (verify_sheet_music env []).1 in
  let r := (verify_sheet_music env []).2 in
  goto_attempts tr = 10
  /\ total_sleep tr = 20%Z
  /\ (exists es ev rest,
        length es = 10
        /\ tr = prologue ++ failed_attempts 0 es
                  ++ PrintLine waiting_for_title :: ev :: rest
        /\ call_of ev = Some wait_title)
  /\ wait_title ∈ calls tr
  /\ (forall e, r = Raised e -> exists c, drive_call c = true /\ raised_by tr c e)
  /\ (drive_calls_return env ->
        exit_ok r = true
        /\ (exists img, (sheet_music_full, img) ∈ written tr)
        /\ (forall k, Returned count_call (VInt (S k)) ∈ tr ->
              exists img, (sheet_music_detail, img) ∈ written tr)).
Proof.
  intros Hs Hf.
  destruct (run_after_exhaustion env Hs Hf) as (es & Hlen & Hes & Hc & Hrun).
  cbv zeta. rewrite Hrun. cbn [fst snd].
  set (past := prologue ++ failed_attempts 0 es).
  assert (Hp : connected_past past).
  { exists es, []. split; [by rewrite app_nil_r | by left]. }
  rewrite (app_assoc prologue). fold past.
  destruct (drive_starts_with_title env past) as (ev & rest & Hd & Hev).
  repeat split.
  - unfold goto_attempts, past.
    rewrite !calls_app, !List.filter_app, !length_app, goto_attempts_failed,
      drive_no_goto, Hlen. done.
  - unfold past.
    rewrite !total_sleep_app, total_sleep_failed_attempts, drive_no_sleep, Hlen.
    done.
  - exists es, ev, (rest ++ [SyncPlaywrightExit]). repeat split; [done| |done].
    rewrite Hd. unfold past. by rewrite <- !app_assoc.
  - rewrite !calls_app, !elem_of_app. right; left.
    apply list_elem_of_omap. exists ev. split; [|done].
    rewrite Hd. by repeat constructor.
  - intros e Hr.
    destruct (drive_raise_origin env past e Hr) as (c & Hl & _ & _ & Hdc).
    exists c. split; [done|]. by apply raised_by_in_run.
  - by destruct (drive_all_steps env past H) as [-> _].
  - rewrite (written_in_run past _ Hp). by apply drive_writes_full.
  - intros k Hin. rewrite (written_in_run past _ Hp).
    apply (drive_writes_detail env past k H).
    rewrite !elem_of_app in Hin. destruct Hin as [Hin|[Hin|Hin]]; [|done|].
    + exfalso.
      by pose proof (event_in_connected_past past _ count_call Hp Hin eq_refl).
    + exfalso. by in_cases Hin.
Qed.

(** C9. When every attempt fails the loop just ends: [connect] returns
    normally after ten failed attempts, the last event of the loop is the
    sleep of 2 seconds that follows the tenth failure, and the next things
    the run does are the line "Waiting for title..." and the wait for the
    title.  What follows the loop is the same [drive] that follows a
    navigation that returned at the first attempt. *)
Theorem exhausted_loop_proceeds_as_if_connected (env : Env) :
  startup_returns env -> every_goto_fails env ->
  exists es,
    length es = 10
    /\ connect env 10 prologue = (failed_attempts 0 es, Normal tt)
    /\ last (failed_attempts 0 es) = Some (Slept 2)
    /\ verify_sheet_music env []
       = (prologue ++ failed_attempts 0 es
            ++ (drive env (prologue ++ failed_attempts 0 es)).1
            ++ [SyncPlaywrightExit],
          (drive env (prologue ++ failed_attempts 0 es)).2)
    /\ (exists ev rest,
          (drive env (prologue ++ failed_attempts 0 es)).1
            = PrintLine waiting_for_title :: ev :: rest
          /\ call_of ev = Some wait_title)
    /\ (forall env',
          startup_returns env' ->
          raises env' prologue (PageGoto target_url) = None ->
          verify_sheet_music env' []
          = (prologue ++ [Returned (PageGoto target_url) VNone]
               ++ (drive env' (prologue ++ [Returned (PageGoto target_url) VNone])).1
               ++ [SyncPlaywrightExit],
             (drive env' (prologue ++ [Returned (PageGoto target_url) VNone])).2)).
Proof.
  intros Hs Hf.
  destruct (run_after_exhaustion env Hs Hf) as (es & Hlen & Hes & Hc & Hrun).
  exists es. repeat split; try done.
  - apply last_failed_attempts. by destruct es.
  - apply drive_starts_with_title.
  - intros env' (H0 & H1 & H2) Hg.
    apply verify_sheet_music_unfold; try done. by apply connect_first_try.
Qed.

(** * The claims at concrete oracles *)

Lemma in_trace (ev : event) (tr : list event) :
  bool_decide (ev ∈ tr) = true -> ev ∈ tr.
Proof. apply bool_decide_eq_true_1. Defined.

(** A run in which nothing fails makes every call of the script once. *)
Example sheet_run_ok :
  calls (verify_sheet_music env_ok []).1 = sheet_script 1 true
  /\ (verify_sheet_music env_ok []).2 = Normal tt.
Proof. by vm_compute. Qed.

Example run_ok :
  run env_ok []
  = ([Returned SyncPlaywrightEnter VNone;
      Returned (ChromiumLaunch true) VNone;
      Returned NewPage VNone;
      Returned (PageGoto "http://localhost:4173") VNone;
      Slept 2;
      Returned (PageScreenshot "verification/screenshot.png") (VBytes []);
      Returned BrowserClose VNone;
      SyncPlaywrightExit],
     Normal tt).
Proof. by vm_compute. Qed.

(** ** Every navigation fails *)

Lemma every_goto_fails_slow_load : every_goto_fails env_slow_load.
Proof. intros past. by exists timed_out. Defined.

Lemma startup_returns_slow_load : startup_returns env_slow_load.
Proof. by repeat split. Defined.

(** C2 as the specification words it does not hold.  Under [env_slow_load]
    every navigation attempt fails and ten attempts are made, yet nothing is
    raised: the function returns normally, so the process exits with status
    0, and both screenshots are written.  Under [env_refused], where the
    title never shows either, the exception that leaves the function is the
    timeout of the wait for the title, the last call of the run, not a
    condition raised by the retry loop. *)
Lemma unreachable_target_raises_nothing :
  (every_goto_fails env_slow_load
   /\ goto_attempts (verify_sheet_music env_slow_load []).1 = 10
   /\ (verify_sheet_music env_slow_load []).2 = Normal tt
   /\ (written (verify_sheet_music env_slow_load []).1).*1
      = [sheet_music_full; sheet_music_detail])
  /\ (every_goto_fails env_refused
      /\ (verify_sheet_music env_refused []).2 = Raised timed_out
      /\ last (calls (verify_sheet_music env_refused []).1) = Some wait_title).
Proof.
  split; split.
  - apply every_goto_fails_slow_load.
  - by vm_compute.
  - intros past. by exists refused.
  - by vm_compute.
Qed.

(** C2 (amended), at [env_slow_load]. *)
Lemma exhausted_retries_witness :
  startup_returns env_slow_load /\ every_goto_fails env_slow_load
  /\ goto_attempts (verify_sheet_music env_slow_load []).1 = 10
  /\ total_sleep (verify_sheet_music env_slow_load []).1 = 20%Z.
Proof.
  split; [apply startup_returns_slow_load|].
  split; [apply every_goto_fails_slow_load|].
  pose proof (exhausted_retries_go_on_to_title_wait env_slow_load
                startup_returns_slow_load every_goto_fails_slow_load) as H.
  cbv zeta in H. split; [apply H | apply H].
Defined.

(** C9, at [env_slow_load]. *)
Lemma exhausted_loop_witness :
  startup_returns env_slow_load /\ every_goto_fails env_slow_load
  /\ exists es, length es = 10
       /\ connect env_slow_load 10 prologue = (failed_attempts 0 es, Normal tt).
Proof.
  split; [apply startup_returns_slow_load|].
  split; [apply every_goto_fails_slow_load|].
  destruct (exhausted_loop_proceeds_as_if_connected env_slow_load
              startup_returns_slow_load every_goto_fails_slow_load)
    as (es & Hlen & Hc & _).
  by exists es.
Defined.

(** ** A wait times out *)

(** C3 as the specification words it does not hold.  When the wait for the
    title times out, the exception leaves [verify_sheet_music] and the run
    ends there: no later step is made. *)
Lemma title_wait_timeout_leaves_function :
  verify_sheet_music env_title_timeout []
  = ([Returned SyncPlaywrightEnter VNone;
      Returned (ChromiumLaunch true) VNone;
      Returned NewPage VNone;
      PrintLine "Connecting to localhost:3000";
      Returned (PageGoto "http://localhost:3000") VNone;
      PrintLine "Waiting for title...";
      Threw wait_title timed_out;
      SyncPlaywrightExit],
     Raised timed_out).
Proof. by vm_compute. Qed.

Lemma title_timeout_in_trace :
  Threw wait_title timed_out ∈ (verify_sheet_music env_title_timeout []).1.
Proof. apply in_trace. by vm_compute. Defined.

(** C3 (amended), at [env_title_timeout]. *)
Lemma title_timeout_witness :
  Threw wait_title timed_out ∈ (verify_sheet_music env_title_timeout []).1
  /\ (verify_sheet_music env_title_timeout []).2 = Raised timed_out
  /\ raised_by (verify_sheet_music env_title_timeout []).1 wait_title timed_out.
Proof.
  split; [apply title_timeout_in_trace|].
  destruct (guarded_waits_never_escape env_title_timeout) as (_ & _ & _ & H).
  apply H, title_timeout_in_trace.
Defined.

(** C4 as the specification words it does not hold.  When only the wait for
    the SVG times out, the full-page screenshot is taken and the function
    returns normally: the process exits with status 0. *)
Lemma svg_timeout_exits_normally :
  Threw wait_svg timed_out ∈ (verify_sheet_music env_svg_timeout []).1
  /\ PageScreenshot sheet_music_full ∈ calls (verify_sheet_music env_svg_timeout []).1
  /\ (verify_sheet_music env_svg_timeout []).2 = Normal tt
  /\ exit_ok (verify_sheet_music env_svg_timeout []).2 = true.
Proof.
  repeat split; try by vm_compute.
  - apply in_trace. by vm_compute.
  - apply (bool_decide_unpack _). by vm_compute.
Qed.

Lemma svg_timeout_in_trace :
  Threw wait_svg timed_out ∈ (verify_sheet_music env_svg_timeout []).1.
Proof. apply in_trace. by vm_compute. Defined.

(** C4 (amended), at [env_svg_timeout]. *)
Lemma svg_timeout_witness :
  Threw wait_svg timed_out ∈ (verify_sheet_music env_svg_timeout []).1
  /\ followed_by (verify_sheet_music env_svg_timeout []).1
       [Threw wait_svg timed_out; PrintLine svg_missed]
       (PageScreenshot sheet_music_full).
Proof.
  split; [apply svg_timeout_in_trace|].
  apply (svg_timeout_still_captures env_svg_timeout timed_out svg_timeout_in_trace).
Defined.

Lemma only_guarded_waits_fail_toast_timeout :
  only_guarded_waits_fail env_toast_timeout.
Proof. intros past c H1 H2. cbn. by rewrite bool_decide_eq_false_2. Defined.

Lemma toast_timeout_in_trace :
  Threw wait_toast timed_out ∈ (verify_sheet_music env_toast_timeout []).1.
Proof. apply in_trace. by vm_compute. Defined.

(** C5, at [env_toast_timeout]: the toast never shows, the run goes on and
    returns. *)
Lemma toast_timeout_witness :
  Threw wait_toast timed_out ∈ (verify_sheet_music env_toast_timeout []).1
  /\ only_guarded_waits_fail env_toast_timeout
  /\ followed_by (verify_sheet_music env_toast_timeout []).1
       [Threw wait_toast timed_out; PrintLine toast_missed] wait_svg
  /\ (verify_sheet_music env_toast_timeout []).2 = Normal tt.
Proof.
  split; [apply toast_timeout_in_trace|].
  split; [apply only_guarded_waits_fail_toast_timeout|].
  destruct (best_effort_wait_does_not_abort env_toast_timeout) as [H1 H2].
  split; [apply H1, toast_timeout_in_trace|].
  apply H2, only_guarded_waits_fail_toast_timeout.
Defined.

(** ** The element capture *)

(** C6 as the specification words it does not hold.  When the locator
    matches nothing, the run prints nothing about the skipped capture: the
    last line printed is the one about the full-page screenshot. *)
Lemma skipped_capture_is_not_logged :
  Returned count_call (VInt 0) ∈ (verify_sheet_music env_no_container []).1
  /\ printed (verify_sheet_music env_no_container []).1
     = ["Connecting to localhost:3000"; "Waiting for title..."; "App loaded.";
        "Video loading initiated..."; "Video loaded toast confirmed.";
        "SVG element found."; "Full page screenshot taken."]
  /\ (verify_sheet_music env_no_container []).2 = Normal tt.
Proof.
  repeat split; try by vm_compute.
  apply in_trace. by vm_compute.
Qed.

Lemma count_one_in_trace :
  Returned count_call (VInt 1) ∈ (verify_sheet_music env_ok []).1.
Proof. apply in_trace. by vm_compute. Defined.

Lemma detail_in_trace :
  Returned detail_call (VBytes []) ∈ (verify_sheet_music env_ok []).1.
Proof. apply in_trace. by vm_compute. Defined.

(** C6 (amended), at [env_ok]: the locator matches, the element screenshot
    is on disk after the run. *)
Lemma element_capture_witness :
  Returned count_call (VInt 1) ∈ (verify_sheet_music env_ok []).1
  /\ Returned detail_call (VBytes []) ∈ (verify_sheet_music env_ok []).1
  /\ files (world_after (idle ∅) (verify_sheet_music env_ok []).1)
       !! sheet_music_detail = Some [].
Proof.
  split; [apply count_one_in_trace|].
  split; [apply detail_in_trace|].
  destruct (element_capture_is_best_effort env_ok ∅) as [_ H].
  destruct (H 0 count_one_in_trace) as [_ H'].
  apply (H' [] detail_in_trace).
Defined.

(** ** The browser *)





(** * Further properties of the scripts *)

Lemma threw_in_failed_attempts a es c e :
  Threw c e ∈ failed_attempts a es -> c = PageGoto target_url /\ e ∈ es.
Proof.
  revert a; induction es as [|e' es IH]; intros a H; cbn in H.
  - by apply elem_of_nil in H.
  - apply elem_of_cons in H as [H|H]; [simplify_eq; split; [done|by left]|].
    apply elem_of_cons in H as [H|H]; [done|].
    apply elem_of_cons in H as [H|H]; [done|].
    destruct (IH _ H) as [-> Hin]. split; [done|by right].
Qed.

Lemma caught_is_Exception es e :
  Forall (fun e => is_Exception e = true) es -> e ∈ es -> is_Exception e = true.
Proof. intros H Hin. by apply (proj1 (Forall_forall _ _) H). Qed.

Lemma drive_unguarded_raise env past c e :
  Threw c e ∈ (drive env past).1 -> c <> wait_toast -> c <> wait_svg ->
  (drive env past).2 = Raised e /\ last (drive env past).1 = Some (Threw c e).
Proof. intros H H1 H2. drive_paths; in_cases H; done. Qed.

(** X1. In [verify_sheet_music] a raise that no handler catches ends the run.
    When a call raises, and it is neither one of the two guarded waits nor
    a [page.goto] raising an [Exception], the function raises that same
    exception and the call is the last one of the run.  This covers the
    start-up calls, the title wait, the clicks and the fill, the captures,
    [browser.close()], and a [page.goto] interrupted by an exception that is
    not an [Exception]. *)
Theorem unguarded_raise_ends_run (env : Env) (c : call) (e : exn) :
  Threw c e ∈ (verify_sheet_music env []).1 ->
  c <> wait_toast -> c <> wait_svg ->
  (is_goto c = true -> is_Exception e = false) ->
  (verify_sheet_music env []).2 = Raised e
  /\ raised_by (verify_sheet_music env []).1 c e.
Proof.
  intros Hin H1 H2 Hg.
  destruct (verify_sheet_music_run env)
    as [e' H|e' H|e' H|es e' Hes Hn He|es tail Hes Heq Ht past].
  - in_cases Hin. split; [done|by left].
  - in_cases Hin. split; [done|]. right. by exists [Returned SyncPlaywrightEnter VNone].
  - in_cases Hin. split; [done|]. right.
    by exists [Returned SyncPlaywrightEnter VNone; Returned (ChromiumLaunch true) VNone].
  - rewrite !elem_of_app in Hin. destruct Hin as [Hin|[Hin|Hin]].
    + cbv [prologue] in Hin. in_cases Hin.
    + destruct (threw_in_failed_attempts _ _ _ _ Hin) as [-> Hes'].
      rewrite (caught_is_Exception es e Hes Hes') in Hg. by specialize (Hg eq_refl).
    + in_cases Hin. split; [done|]. right.
      exists (prologue ++ failed_attempts 0 es). by rewrite <- !app_assoc.
  - rewrite !elem_of_app in Hin. destruct Hin as [Hin|[Hin|Hin]].
    + exfalso. subst past. rewrite !elem_of_app in Hin.
      destruct Hin as [Hin|[Hin|Hin]].
      * cbv [prologue] in Hin. in_cases Hin.
      * destruct (threw_in_failed_attempts _ _ _ _ Hin) as [-> Hes'].
        rewrite (caught_is_Exception es e Hes Hes') in Hg. by specialize (Hg eq_refl).
      * destruct Ht as [[-> _]|[-> _]]; in_cases Hin.
    + destruct (drive_unguarded_raise env past c e Hin H1 H2) as [Hr Hl].
      split; [done|]. by apply raised_by_in_run.
    + in_cases Hin.
Qed.

Lemma drive_returns_iff_closed env past :
  (drive env past).2 = Normal tt
  <-> Returned BrowserClose VNone ∈ (drive env past).1.
Proof.
  drive_paths; (split; [intros H; first [done | by repeat constructor]
                       | intros H; in_cases H; done]).
Qed.

(** X2. [verify_sheet_music] returns normally exactly when [browser.close()]
    was called and returned: the process exits with status 0 in that case
    and in no other. *)
Theorem returns_iff_browser_closed (env : Env) :
  (verify_sheet_music env []).2 = Normal tt
  <-> Returned BrowserClose VNone ∈ (verify_sheet_music env []).1.
Proof.
  split.
  - destruct (verify_sheet_music_run env)
      as [e' H|e' H|e' H|es e' Hes Hn He|es tail Hes Heq Ht past]; try done.
    intros Hr. rewrite !elem_of_app. right; left.
    by apply drive_returns_iff_closed.
  - intros Hin.
    destruct (run_reached_drive env (Returned BrowserClose VNone) BrowserClose
                eq_refl eq_refl Hin) as (past & _ & Hr & Hd & _).
    rewrite Hr. by apply drive_returns_iff_closed.
Qed.

Lemma caught_failures_app tr1 tr2 :
  caught_failures (tr1 ++ tr2) = caught_failures tr1 + caught_failures tr2.
Proof. unfold caught_failures. by rewrite List.filter_app, length_app. Qed.

Lemma caught_failures_failed_attempts a es :
  Forall (fun e => is_Exception e = true) es ->
  caught_failures (failed_attempts a es) = length es.
Proof.
  intros H. revert a. induction H as [|e es He _ IH]; intros a; [done|].
  cbn [failed_attempts]. unfold caught_failures in *. cbn. rewrite He. cbn.
  by rewrite IH.
Qed.

Lemma drive_no_caught_failure env past : caught_failures (drive env past).1 = 0.
Proof. drive_paths; done. Qed.

Lemma returned_goto_not_in_failed_attempts a es v :
  Returned (PageGoto target_url) v ∉ failed_attempts a es.
Proof.
  revert a; induction es as [|e es IH]; intros a H; cbn in H.
  - by apply elem_of_nil in H.
  - apply elem_of_cons in H as [H|H]; [done|].
    apply elem_of_cons in H as [H|H]; [done|].
    apply elem_of_cons in H as [H|H]; [done|]. by eapply IH.
Qed.

Lemma returned_goto_not_in_drive env past v :
  Returned (PageGoto target_url) v ∉ (drive env past).1.
Proof.
  intros H.
  assert (Hc : PageGoto target_url ∈ List.filter is_goto (calls (drive env past).1)).
  { apply list_elem_of_In, List.filter_In. split; [|done].
    apply list_elem_of_In, list_elem_of_omap.
    by exists (Returned (PageGoto target_url) v). }
  rewrite drive_no_goto in Hc. by apply elem_of_nil in Hc.
Qed.

(** X3. The only sleeping [verify_sheet_music] does is in the retry loop: the
    total is 2 seconds for each failed attempt the loop caught, there are at
    most ten of those (20 seconds), and a navigation that returns is the
    last attempt: the attempts are then the caught failures plus one. *)
Theorem retry_sleeps_two_seconds_per_caught_failure (env : Env) :
  let tr := (verify_sheet_music env []).1 in
  total_sleep tr = (2 * Z.of_nat (caught_failures tr))%Z
  /\ caught_failures tr <= 10
  /\ (forall v, Returned (PageGoto target_url) v ∈ tr ->
        goto_attempts tr = caught_failures tr + 1).
Proof.
  cbv zeta.
  destruct (verify_sheet_music_run env)
    as [e' H|e' H|e' H|es e' Hes Hn He|es tail Hes Heq Ht past].
  - repeat split; [cbn; lia|]. intros v Hin. in_cases Hin.
  - repeat split; [cbn; lia|]. intros v Hin. in_cases Hin.
  - repeat split; [cbn; lia|]. intros v Hin. in_cases Hin.
  - rewrite !total_sleep_app, !caught_failures_app, total_sleep_failed_attempts,
      (caught_failures_failed_attempts 0 es Hes).
    assert (Hlast : caught_failures
                      [Threw (PageGoto target_url) e'; SyncPlaywrightExit] = 0).
    { unfold caught_failures. cbn. by rewrite He. }
    rewrite Hlast.
    repeat split; [cbn; lia | cbn; lia |].
    intros v Hin. exfalso. rewrite !elem_of_app in Hin.
    destruct Hin as [Hin|[Hin|Hin]].
    + cbv [prologue] in Hin. in_cases Hin.
    + by apply returned_goto_not_in_failed_attempts in Hin.
    + in_cases Hin.
  - subst past.
    rewrite !total_sleep_app, !caught_failures_app, total_sleep_failed_attempts,
      (caught_failures_failed_attempts 0 es Hes), drive_no_sleep,
      drive_no_caught_failure.
    unfold goto_attempts.
    rewrite !calls_app, !List.filter_app, !length_app, goto_attempts_failed,
      drive_no_goto.
    destruct Ht as [[-> Hl]|[-> Hl]].
    + repeat split; [cbn; lia | cbn; lia |].
      intros v Hin. exfalso. rewrite !elem_of_app in Hin.
      destruct Hin as [[Hin|[Hin|Hin]]|[Hin|Hin]].
      * cbv [prologue] in Hin. in_cases Hin.
      * by apply returned_goto_not_in_failed_attempts in Hin.
      * in_cases Hin.
      * by apply returned_goto_not_in_drive in Hin.
      * in_cases Hin.
    + repeat split; [cbn; lia | cbn; lia |]. intros v _. cbn. lia.
Qed.

Lemma drive_failed_interaction env past c e :
  c ∈ interaction_steps -> Threw c e ∈ (drive env past).1 ->
  written (drive env past).1 = []
  /\ (BrowserClose ∉ calls (drive env past).1)
  /\ (drive env past).2 = Raised e.
Proof.
  intros Hc H. cbv [interaction_steps] in Hc.
  drive_paths; in_cases H; try (exfalso; by in_cases Hc).
  all: repeat split; try done; intros Hx; cbn in Hx; by in_cases Hx.
Qed.

(** X4. When the title wait, a click or the fill raises, no screenshot is
    written and [browser.close()] is not called: the run ends there with
    that exception. *)
Theorem failed_interaction_leaves_no_artifact (env : Env) (c : call) (e : exn) :
  c ∈ interaction_steps ->
  Threw c e ∈ (verify_sheet_music env []).1 ->
  written (verify_sheet_music env []).1 = []
  /\ (BrowserClose ∉ calls (verify_sheet_music env []).1)
  /\ (verify_sheet_music env []).2 = Raised e.
Proof.
  intros Hc Hin.
  assert (Hdc : drive_call c = true).
  { cbv [interaction_steps] in Hc. by in_cases Hc. }
  destruct (run_reached_drive env (Threw c e) c eq_refl Hdc Hin)
    as (past & Htr & Hr & Hd & Hp).
  destruct (drive_failed_interaction env past c e Hc Hd) as (Hw & Hb & Hres).
  rewrite Htr, Hr. repeat split; [|  |done].
  - by rewrite written_in_run.
  - rewrite !calls_app, !elem_of_app. intros [Hx|[Hx|Hx]].
    + by pose proof (calls_connected_past past _ Hp Hx).
    + done.
    + cbn in Hx. by in_cases Hx.
Qed.

(** X5. [run] handles nothing and prints nothing.  Any call that raises is
    its last call and its exception leaves the function; [run] returns
    normally exactly when [browser.close()] returned; and it sleeps its 2
    seconds exactly when the navigation returned. *)
Theorem run_stops_at_first_raise (env : Env) :
  let tr := (run env []).1 in
  let r := (run env []).2 in
  (forall c e, Threw c e ∈ tr -> r = Raised e /\ raised_by tr c e)
  /\ (r = Normal tt <-> Returned BrowserClose VNone ∈ tr)
  /\ printed tr = []
  /\ (total_sleep tr = 2%Z <-> Returned (PageGoto preview_url) VNone ∈ tr).
Proof.
  cbv [run with_sync_playwright bind invoke sleep ret]. cbn.
  repeat next_call.
  all: split; [intros c e' Hin; in_cases Hin;
               (split; [done|]; first [by left | right; with_prefix ltac:(reflexivity)])|].
  all: split; [split; [intros H; first [done | by repeat constructor]
                      | intros H; in_cases H; done]|].
  all: split; [done|].
  all: split; [intros H; first [done | by repeat constructor]
              | intros H; in_cases H; done].
Qed.

Lemma foldl_store_lookup_other (m : gmap string png) ws path :
  path ∉ ws.*1 -> foldl store m ws !! path = m !! path.
Proof.
  intros H. rewrite foldl_store_union. apply lookup_union_r.
  apply not_elem_of_list_to_map_1. rewrite fmap_reverse, elem_of_reverse. done.
Qed.

(** X6. Neither script touches a file other than its screenshots: a path
    different from the three destination paths holds after the run what it
    held before. *)
Theorem other_files_untouched (env : Env) (fs : gmap string png) (path : string) :
  path <> sheet_music_full -> path <> sheet_music_detail -> path <> screenshot_path ->
  files (world_after (idle fs) (verify_sheet_music env []).1) !! path = fs !! path
  /\ files (world_after (idle fs) (run env []).1) !! path = fs !! path.
Proof.
  intros H1 H2 H3. rewrite !files_world_after. split.
  - apply foldl_store_lookup_other. intros Hin.
    destruct (sheet_written_paths env) as [k Hk].
    assert (Hx : path ∈ [sheet_music_full; sheet_music_detail]).
    { rewrite Hk. apply elem_of_app. by left. }
    by in_cases Hx.
  - apply foldl_store_lookup_other. intros Hin.
    destruct (run_written_paths env) as [k Hk].
    assert (Hx : path ∈ [screenshot_path]).
    { rewrite Hk. apply elem_of_app. by left. }
    by in_cases Hx.
Qed.

Lemma drive_detail_needs_count env past :
  detail_call ∈ calls (drive env past).1 ->
  (exists k, Returned count_call (VInt (S k)) ∈ (drive env past).1)
  /\ (exists img, Returned (PageScreenshot sheet_music_full) (VBytes img)
                    ∈ (drive env past).1).
Proof.
  intros H. drive_paths; cbn in H; in_cases H.
  all: split; eexists; by repeat constructor.
Qed.

(** X7. The element screenshot is asked for only after the full-page
    screenshot returned and [count()] returned a positive number. *)
Theorem element_capture_needs_positive_count (env : Env) :
  detail_call ∈ calls (verify_sheet_music env []).1 ->
  (exists k, Returned count_call (VInt (S k)) ∈ (verify_sheet_music env []).1)
  /\ (exists img, Returned (PageScreenshot sheet_music_full) (VBytes img)
                    ∈ (verify_sheet_music env []).1).
Proof.
  intros Hin. apply list_elem_of_omap in Hin as (ev & Hev & Hc).
  destruct (run_reached_drive env ev detail_call Hc eq_refl Hev)
    as (past & Htr & _ & Hd & _).
  assert (Hd' : detail_call ∈ calls (drive env past).1).
  { apply list_elem_of_omap. by exists ev. }
  destruct (drive_detail_needs_count env past Hd') as [[k Hk] [img Himg]].
  rewrite Htr. split.
  - exists k. rewrite !elem_of_app. by right; left.
  - exists img. rewrite !elem_of_app. by right; left.
Qed.

Lemma line_in_spec s tr : line_in s tr = true <-> PrintLine s ∈ tr.
Proof.
  unfold line_in. rewrite existsb_exists. split.
  - intros (ev & Hin & Hev). destruct ev; try done.
    apply bool_decide_eq_true_1 in Hev as ->. by apply list_elem_of_In.
  - intros Hin. exists (PrintLine s). split; [by apply list_elem_of_In|].
    by apply bool_decide_eq_true_2.
Qed.

Lemma returned_in_spec c tr : returned_in c tr = true <-> Returned c VNone ∈ tr.
Proof.
  unfold returned_in. rewrite existsb_exists. split.
  - intros (ev & Hin & Hev). destruct ev as [c' v| | | |]; try done.
    destruct v; try done.
    apply bool_decide_eq_true_1 in Hev as ->. by apply list_elem_of_In.
  - intros Hin. exists (Returned c VNone). split; [by apply list_elem_of_In|].
    by apply bool_decide_eq_true_2.
Qed.

Lemma threw_in_spec c tr : threw_in c tr = true <-> exists e, Threw c e ∈ tr.
Proof.
  unfold threw_in. rewrite existsb_exists. split.
  - intros (ev & Hin & Hev). destruct ev as [|c' e| | |]; try done.
    apply bool_decide_eq_true_1 in Hev as ->. exists e. by apply list_elem_of_In.
  - intros [e Hin]. exists (Threw c e). split; [by apply list_elem_of_In|].
    by apply bool_decide_eq_true_2.
Qed.

Lemma captured_in_spec c tr :
  captured_in c tr = true <-> exists img, Returned c (VBytes img) ∈ tr.
Proof.
  unfold captured_in. rewrite existsb_exists. split.
  - intros (ev & Hin & Hev). destruct ev as [c' v| | | |]; try done.
    destruct v as [| |img]; try done.
    apply bool_decide_eq_true_1 in Hev as ->. exists img. by apply list_elem_of_In.
  - intros [img Hin]. exists (Returned c (VBytes img)).
    split; [by apply list_elem_of_In|]. by apply bool_decide_eq_true_2.
Qed.

Lemma truthful_log_bool tr :
  line_in "App loaded." tr = returned_in wait_title tr ->
  line_in "Video loading initiated..." tr = returned_in click_load tr ->
  line_in "Video loaded toast confirmed." tr = returned_in wait_toast tr ->
  line_in toast_missed tr = threw_in wait_toast tr ->
  line_in "SVG element found." tr = returned_in wait_svg tr ->
  line_in svg_missed tr = threw_in wait_svg tr ->
  line_in "Full page screenshot taken." tr
    = captured_in (PageScreenshot sheet_music_full) tr ->
  line_in detail_taken tr = captured_in detail_call tr ->
  truthful_log tr.
Proof.
  intros H1 H2 H3 H4 H5 H6 H7 H8. unfold truthful_log.
  rewrite <- !line_in_spec, <- !returned_in_spec, <- !threw_in_spec,
    <- !captured_in_spec, H1, H2, H3, H4, H5, H6, H7, H8.
  done.
Qed.

Lemma drive_truthful_log env past : truthful_log (drive env past).1.
Proof. drive_paths; apply truthful_log_bool; by vm_compute. Qed.

Lemma failed_attempts_no_drive_event a es ev :
  ev ∈ failed_attempts a es -> drive_event ev = false.
Proof.
  revert a; induction es as [|e es IH]; intros a H; cbn in H.
  - by apply elem_of_nil in H.
  - apply elem_of_cons in H as [->|H]; [done|].
    apply elem_of_cons in H as [->|H]; [done|].
    apply elem_of_cons in H as [->|H]; [done|]. by eapply IH.
Qed.

Lemma truthful_log_nil : truthful_log [].
Proof.
  unfold truthful_log. repeat split;
    intros H; try destruct H as [? H]; by apply elem_of_nil in H.
Qed.

Lemma truthful_log_transfer tr d :
  (forall ev, drive_event ev = true -> (ev ∈ tr <-> ev ∈ d)) ->
  truthful_log d -> truthful_log tr.
Proof.
  intros Hiff (H1 & H2 & H3 & H4 & H5 & H6 & H7 & H8). unfold truthful_log.
  split; [transfer Hiff H1|]. split; [transfer Hiff H2|].
  split; [transfer Hiff H3|]. split; [transfer Hiff H4|].
  split; [transfer Hiff H5|]. split; [transfer Hiff H6|].
  split; [transfer Hiff H7|]. transfer Hiff H8.
Qed.

(** X8. The status lines say what happened.  In any run, "App loaded." is
    printed exactly when the title wait returned, "Video loading
    initiated..." when the click on Load returned, each confirmation line
    when its wait returned, each handler line when its wait raised, and
    each "screenshot taken" line when that screenshot returned. *)
Theorem log_lines_report_what_happened (env : Env) :
  truthful_log (verify_sheet_music env []).1.
Proof.
  assert (Hnone : forall tr : list event,
            (forall ev, ev ∈ tr -> drive_event ev = false) -> truthful_log tr).
  { intros tr H. apply (truthful_log_transfer tr []); [|apply truthful_log_nil].
    intros ev Hev. split; intros Hin.
    - apply H in Hin. congruence.
    - by apply elem_of_nil in Hin. }
  destruct (verify_sheet_music_run env)
    as [e' H|e' H|e' H|es e' Hes Hn He|es tail Hes Heq Ht past].
  - apply Hnone. intros ev Hin. by in_cases Hin.
  - apply Hnone. intros ev Hin. by in_cases Hin.
  - apply Hnone. intros ev Hin. by in_cases Hin.
  - apply Hnone. intros ev Hin. rewrite !elem_of_app in Hin.
    destruct Hin as [Hin|[Hin|Hin]].
    + cbv [prologue] in Hin. by in_cases Hin.
    + by eapply failed_attempts_no_drive_event.
    + by in_cases Hin.
  - apply (truthful_log_transfer _ (drive env past).1);
      [|apply drive_truthful_log].
    intros ev Hev. rewrite !elem_of_app. split; [|by right; left].
    intros [Hin|[Hin|Hin]]; [|done|].
    + exfalso. subst past. rewrite !elem_of_app in Hin.
      destruct Hin as [Hin|[Hin|Hin]].
      * cbv [prologue] in Hin. in_cases Hin; done.
      * apply failed_attempts_no_drive_event in Hin. congruence.
      * destruct Ht as [[-> _]|[-> _]]; in_cases Hin; done.
    + exfalso. by in_cases Hin.
Qed.

Lemma printed_app tr1 tr2 : printed (tr1 ++ tr2) = printed tr1 ++ printed tr2.
Proof. apply omap_app. Qed.

Lemma printed_failed_attempts a es :
  printed (failed_attempts a es) = failure_lines a es.
Proof.
  unfold failure_lines. revert a; induction es as [|e es IH]; intros a; [done|].
  cbn [failed_attempts]. cbn. rewrite Nat.add_0_r. f_equal.
  fold (printed (failed_attempts (S a) es)). rewrite IH.
  apply imap_ext. intros i x _. cbn. f_equal. lia.
Qed.

Lemma drive_lines env past :
  forallb drive_line (printed (drive env past).1) = true.
Proof. drive_paths; by vm_compute. Qed.

(** X9. The failed attempts are logged by index, from 0.  In a run whose
    start-up returns, the lines printed are "Connecting to localhost:3000",
    then one line "Connection attempt i failed: message" for each failed
    attempt the loop caught, with i = 0, 1, 2, ... in order and at most ten
    of them, then the lines of the later steps, none of which begins like a
    line of the loop. *)
Theorem failed_attempts_are_logged_by_index (env : Env) :
  startup_returns env ->
  exists es rest,
    length es <= 10
    /\ printed (verify_sheet_music env []).1
       = ("Connecting to localhost:" +:+ str port) :: failure_lines 0 es ++ rest
    /\ caught_failures (verify_sheet_music env []).1 = length es
    /\ forallb drive_line rest = true.
Proof.
  intros (H0 & H1 & H2).
  destruct (verify_sheet_music_run env)
    as [e' H|e' H|e' H|es e' Hes Hn He|es tail Hes Heq Ht past]; try congruence.
  - exists es, []. split; [lia|].
    rewrite !printed_app, printed_failed_attempts, !caught_failures_app,
      (caught_failures_failed_attempts 0 es Hes).
    assert (Hlast : caught_failures
                      [Threw (PageGoto target_url) e'; SyncPlaywrightExit] = 0).
    { unfold caught_failures. cbn. by rewrite He. }
    rewrite Hlast. repeat split; cbn; lia.
  - exists es, (printed (drive env past).1). subst past.
    rewrite !printed_app, printed_failed_attempts, !caught_failures_app,
      (caught_failures_failed_attempts 0 es Hes), drive_no_caught_failure.
    split; [destruct Ht as [[_ ?]|[_ ?]]; lia|].
    split; [|split].
    + destruct Ht as [[-> _]|[-> _]]; cbn; by rewrite ?app_nil_r.
    + destruct Ht as [[-> _]|[-> _]]; cbn; lia.
    + apply drive_lines.
Qed.

(** ** At concrete oracles *)

Lemma fill_error_in_trace :
  Threw fill_url fill_error ∈ (verify_sheet_music env_fill_fails []).1.
Proof. apply in_trace. by vm_compute. Defined.

(** X1, at [env_fill_fails]. *)
Lemma unguarded_raise_witness :
  Threw fill_url fill_error ∈ (verify_sheet_music env_fill_fails []).1
  /\ (verify_sheet_music env_fill_fails []).2 = Raised fill_error
  /\ raised_by (verify_sheet_music env_fill_fails []).1 fill_url fill_error.
Proof.
  split; [apply fill_error_in_trace|].
  apply (unguarded_raise_ends_run env_fill_fails fill_url fill_error
           fill_error_in_trace); [done | done | intros H; discriminate H].
Defined.

(** An interrupt during the first navigation is not retried. *)
Example interrupt_leaves_the_loop :
  verify_sheet_music env_interrupted []
  = ([Returned SyncPlaywrightEnter VNone;
      Returned (ChromiumLaunch true) VNone;
      Returned NewPage VNone;
      PrintLine "Connecting to localhost:3000";
      Threw (PageGoto "http://localhost:3000") (Exn KeyboardInterrupt "");
      SyncPlaywrightExit],
     Raised (Exn KeyboardInterrupt "")).
Proof. by vm_compute. Qed.

Lemma fill_is_interaction_step : fill_url ∈ interaction_steps.
Proof. apply (bool_decide_unpack _). by vm_compute. Defined.

(** X4, at [env_fill_fails]. *)
Lemma failed_interaction_witness :
  fill_url ∈ interaction_steps
  /\ Threw fill_url fill_error ∈ (verify_sheet_music env_fill_fails []).1
  /\ written (verify_sheet_music env_fill_fails []).1 = []
  /\ (verify_sheet_music env_fill_fails []).2 = Raised fill_error.
Proof.
  split; [apply fill_is_interaction_step|].
  split; [apply fill_error_in_trace|].
  destruct (failed_interaction_leaves_no_artifact env_fill_fails fill_url fill_error
              fill_is_interaction_step fill_error_in_trace) as (Hw & _ & Hr).
  by split.
Defined.

(** X6, at [env_ok] on a disk with one other file. *)
Lemma other_files_witness :
  files (world_after (idle notes_only) (verify_sheet_music env_ok []).1)
    !! "verification/notes.txt" = Some []
  /\ files (world_after (idle notes_only) (run env_ok []).1)
       !! "verification/notes.txt" = Some [].
Proof.
  destruct (other_files_untouched env_ok notes_only "verification/notes.txt")
    as [H1 H2]; [done..|].
  split; [etrans; [exact H1|] | etrans; [exact H2|]]; apply lookup_singleton_eq.
Defined.

Lemma detail_call_in_calls : detail_call ∈ calls (verify_sheet_music env_ok []).1.
Proof. apply (bool_decide_unpack _). by vm_compute. Defined.

(** X7, at [env_ok]. *)
Lemma element_capture_needs_count_witness :
  detail_call ∈ calls (verify_sheet_music env_ok []).1
  /\ exists k, Returned count_call (VInt (S k)) ∈ (verify_sheet_music env_ok []).1.
Proof.
  split; [apply detail_call_in_calls|].
  apply (element_capture_needs_positive_count env_ok detail_call_in_calls).
Defined.

(** X9, at [env_slow_load]. *)
Lemma failed_attempts_logged_witness :
  startup_returns env_slow_load
  /\ exists es rest,
       length es <= 10
       /\ printed (verify_sheet_music env_slow_load []).1
          = ("Connecting to localhost:" +:+ str port) :: failure_lines 0 es ++ rest.
Proof.
  split; [apply startup_returns_slow_load|].
  destruct (failed_attempts_are_logged_by_index env_slow_load
              startup_returns_slow_load) as (es & rest & H1 & H2 & _).
  by exists es, rest.
Defined.

Example failure_lines_count_from_zero :
  failure_lines 0 [timed_out; refused]
  = ["Connection attempt 0 failed: Timeout 30000ms exceeded.";
     "Connection attempt 1 failed: net::ERR_CONNECTION_REFUSED"].
Proof. by vm_compute. Qed.
